(** * refi: comparing mortgage refinancing options

    A shallow embedding of [refi.py] and the proofs of its specification.

    Number model.  Python's [float] is idealised as the real numbers [R]:
    a decimal literal denotes the exact decimal, [+ - * /] are exact, and
    [math.exp] and [math.log] are [exp] and [ln].  Rounding, overflow and
    NaN are therefore outside the model.  What is kept of Python's
    arithmetic is its failure behaviour: [x / y] raises [ZeroDivisionError]
    when [y] is zero and [math.log x] raises [ValueError] when [x <= 0].
    Python's [int] ([term], [horizon], loop counters) is [Z].

    Console output ([silent=False]) only formats values already computed and
    never changes a returned value; it is left out. *)

From Stdlib Require Import Reals Lra Lia ZArith List Bool Permutation.
Import ListNotations.

Open Scope Z_scope.
Open Scope R_scope.

(** ** Exceptions and results *)

(** The four places where the module can raise [ValueError]. *)
Inductive value_error : Type :=
| RatesTooShort (horizon : Z)  (* 'List of investment growth rates not long enough ...' *)
| NotEnoughCash                (* "You don't have enough monthly cash ..." *)
| MathDomain                   (* math.log outside its domain *)
| EmptyMax.                    (* max() of an empty iterable *)

Inductive exn : Type :=
| ValueError (why : value_error)
| ZeroDivisionError.

Inductive result (A : Type) : Type :=
| Ok (a : A)
| Raise (e : exn).

Arguments Ok {A} a.
Arguments Raise {A} e.

(** ** The record of a refinancing option (class [RefinanceOption]) *)

Record RefinanceOption : Type := mkRefinanceOption {
  payment : R;
  term : Z;
  cost : R
}.

(** [investmentGrowthRate] is either a float or a list of floats; the code
    tells them apart with [type(rates) == type([])]. *)
Inductive GrowthRate : Type :=
| Scalar (r : R)
| RateList (l : list R).

(** ** Ghost events

    Two program points are recorded so that statements about what was run,
    and in which order, can be made: the entry of [simulate] with its
    arguments, and each iteration of its monthly loop. *)
Inductive event : Type :=
| SimulateCall (refiOption : RefinanceOption) (monthlyCash : R)
               (investmentGrowthRate : GrowthRate) (horizon : Z)
| MonthStep (month : Z).

(** A computation that may raise, together with the events it went through
    before returning or raising. *)
Record traced (A : Type) : Type := Traced {
  trace : list event;
  outcome : result A
}.

Arguments Traced {A} trace outcome.
Arguments trace {A} t.
Arguments outcome {A} t.

Class Monad (m : Type -> Type) : Type := {
  ret : forall {A}, A -> m A;
  bind : forall {A B}, m A -> (A -> m B) -> m B;
  raise : forall {A}, exn -> m A
}.

Notation "x <- c1 ;; c2" := (bind c1 (fun x => c2))
  (at level 61, c1 at next level, right associativity).
Notation "c1 ;; c2" := (bind c1 (fun _ => c2))
  (at level 61, right associativity).

#[export] Instance result_monad : Monad result := {
  ret := fun A a => Ok a;
  bind := fun A B c k => match c with Ok a => k a | Raise e => Raise e end;
  raise := fun A e => Raise e
}.

#[export] Instance traced_monad : Monad traced := {
  ret := fun A a => Traced [] (Ok a);
  bind := fun A B c k =>
    match outcome c with
    | Ok a => Traced (trace c ++ trace (k a)) (outcome (k a))
    | Raise e => Traced (trace c) (Raise e)
    end;
  raise := fun A e => Traced [] (Raise e)
}.

Definition tick (ev : event) : traced unit := Traced [ev] (Ok tt).

(** A fallible pure computation run inside a traced one. *)
Definition lift {A : Type} (c : result A) : traced A := Traced [] c.

(** [for x in l: s = body(x, s)], the loop state passed along. *)
Fixpoint for_each {A S : Type} (l : list A) (body : A -> S -> traced S) (s : S)
  : traced S :=
  match l with
  | [] => ret s
  | x :: xs => s' <- body x s ;; for_each xs body s'
  end.

(** ** Python primitives *)

(** [x / y] on floats. *)
Definition py_div (x y : R) : result R :=
  if Req_dec_T y 0 then Raise ZeroDivisionError else Ok (x / y).

(** [math.log(x)]. *)
Definition py_log (x : R) : result R :=
  if Rle_dec x 0 then Raise (ValueError MathDomain) else Ok (ln x).

Definition Rltb (x y : R) : bool := if Rlt_dec x y then true else false.
Definition Rgtb (x y : R) : bool := if Rgt_dec x y then true else false.

(** [max(iterable)]: the first item is the running maximum and a later item
    replaces it only when it is strictly greater; an empty iterable raises. *)
Definition py_max {A : Type} (gt : A -> A -> bool) (l : list A) : result A :=
  match l with
  | [] => Raise (ValueError EmptyMax)
  | x :: xs => Ok (fold_left (fun m item => if gt item m then item else m) xs x)
  end.

(** [range(n)]: empty when [n <= 0]. *)
Definition range (n : Z) : list Z := map Z.of_nat (seq 0 (Z.to_nat n)).

(** [[x] * n]: empty when [n <= 0]. *)
Definition list_times {A : Type} (x : A) (n : Z) : list A := repeat x (Z.to_nat n).

(** A slice bound as Python clips it: a negative bound counts from the end,
    and every bound is brought into [0 .. len]. *)
Definition clip_index (len i : Z) : nat :=
  Z.to_nat (if (i <? 0)%Z then Z.max 0 (i + len) else Z.min i len).

(** [l[a:b]]. *)
Definition slice {A : Type} (l : list A) (a b : Z) : list A :=
  let len := Z.of_nat (length l) in
  skipn (clip_index len a) (firstn (clip_index len b) l).

(** [functools.reduce(f, l, init)]. *)
Definition reduce {A B : Type} (f : B -> A -> B) (l : list A) (init : B) : B :=
  fold_left f l init.

(** ** The module *)

Definition INFLATION : R := 0.03.

Definition applyMonthlyInterest (principal annualRate : R) : R :=
  principal * (1 + annualRate / 12).

(** The divisions by the literal 12 cannot raise and are written with [/]. *)
Definition calcMonthlyPayment (amountFinanced interestRate years fees : R)
  : result R :=
  let r := interestRate in
  let P := amountFinanced in
  let T := years in
  m <- py_div ((r / 12) * P * exp (r * T)) (exp (r * T) - 1) ;;
  ret (m + fees).

Definition calcNumPayments (amountFinanced interestRate monthlyPayment fees : R)
  : result R :=
  let r := interestRate in
  let m := monthlyPayment - fees in
  let P := amountFinanced in
  a <- py_div 1 r ;;
  q <- py_div (12 * m) (12 * m - r * P) ;;
  l <- py_log q ;;
  let T := a * l in
  ret (12 * T).

Definition simulate (refiOption : RefinanceOption) (monthlyCash : R)
    (investmentGrowthRate : GrowthRate) (horizon : Z) : traced R :=
  tick (SimulateCall refiOption monthlyCash investmentGrowthRate horizon) ;;
  rates <- match investmentGrowthRate with
           | RateList rates =>
               if (Z.of_nat (length rates) <? horizon)%Z
               then raise (ValueError (RatesTooShort horizon))
               else ret rates
           | Scalar r => ret (list_times r horizon)
           end ;;
  (if Rltb monthlyCash (payment refiOption)
   then raise (ValueError NotEnoughCash)
   else ret tt) ;;
  terminalWealth <-
    for_each (range horizon) (fun month terminalWealth =>
      tick (MonthStep month) ;;
      let payment :=
        if (month <? term refiOption)%Z then payment refiOption else 0 in
      let payment :=
        if (month =? 0)%Z then payment + cost refiOption else payment in
      let netCash := monthlyCash - payment in
      ret (terminalWealth
           + reduce applyMonthlyInterest (slice rates month horizon) netCash))
      0 ;;
  let presentValue := terminalWealth * exp (- INFLATION * IZR horizon / 12) in
  ret presentValue.

(** [maxVal] is initialised and compared against, and never assigned in the
    loop. *)
Definition compareRefiOptions (investmentGrowthRate : GrowthRate)
    (refiOptions : list RefinanceOption) : traced (option RefinanceOption) :=
  monthlyCash <- lift (py_max Rgtb (map payment refiOptions)) ;;
  horizon <- lift (py_max Z.gtb (map term refiOptions)) ;;
  let maxVal := 0 in
  maxOption <-
    for_each refiOptions (fun option maxOption =>
      val <- simulate option monthlyCash investmentGrowthRate horizon ;;
      if Rgtb val maxVal then ret (Some option) else ret maxOption)
      None ;;
  ret maxOption.

(** ** Definitions used to state the properties *)

(** The months whose loop iteration appears in a trace, in order. *)
Definition months (t : list event) : list Z :=
  flat_map (fun ev => match ev with MonthStep m => [m] | _ => [] end) t.

(** The calls of [simulate] that appear in a trace, in order. *)
Definition calls (t : list event) : list event :=
  filter (fun ev => match ev with SimulateCall _ _ _ _ => true | _ => false end) t.

(** The first guard of [simulate] trips: a rate list shorter than the horizon. *)
Definition ratesTooShort (g : GrowthRate) (horizon : Z) : Prop :=
  match g with
  | RateList rates => (Z.of_nat (length rates) < horizon)%Z
  | Scalar _ => False
  end.

(** The list [rates] that the loop of [simulate] reads. *)
Definition resolvedRates (g : GrowthRate) (horizon : Z) : list R :=
  match g with
  | RateList rates => rates
  | Scalar r => list_times r horizon
  end.

(** The value of [netCash] in the iteration for [month]. *)
Definition netCash (o : RefinanceOption) (monthlyCash : R) (month : Z) : R :=
  let payment := if (month <? term o)%Z then payment o else 0 in
  let payment := if (month =? 0)%Z then payment + cost o else payment in
  monthlyCash - payment.

(** The value of [terminalWealth] when the loop of [simulate] ends. *)
Definition terminalWealth (o : RefinanceOption) (monthlyCash : R)
    (rates : list R) (horizon : Z) : R :=
  fold_left
    (fun W month =>
       W + reduce applyMonthlyInterest (slice rates month horizon)
                  (netCash o monthlyCash month))
    (range horizon) 0.

(** The discount of the last line of the simulation. *)
Definition discounted (wealth : R) (horizon : Z) : R :=
  wealth * exp (- INFLATION * IZR horizon / 12).

(** The value [simulate] returns once past its guards. *)
Definition presentValue (o : RefinanceOption) (monthlyCash : R)
    (g : GrowthRate) (horizon : Z) : R :=
  discounted (terminalWealth o monthlyCash (resolvedRates g horizon) horizon)
             horizon.

Definition Rsum (l : list R) : R := fold_right Rplus 0 l.

(** [principal] after [n] months at the annual rate [annualRate]. *)
Definition compound (principal annualRate : R) (n : nat) : R :=
  Nat.iter n (fun p => applyMonthlyInterest p annualRate) principal.

(** The baseline of investing without a mortgage, following the spec's words:
    every month the whole [deposit] is added to the balance, and the balance
    then earns that month's interest. *)
Definition investEveryMonth (deposit : R) (rates : list R) : R :=
  fold_left (fun balance annualRate =>
               applyMonthlyInterest (balance + deposit) annualRate)
            rates 0.

(** The selection the loop of [compareRefiOptions] makes, on the list of the
    options with their present values: the last one above [maxVal = 0]. *)
Definition lastAboveZero (pvs : list (RefinanceOption * R)) : option RefinanceOption :=
  fold_left (fun maxOption ov => if Rgtb (snd ov) 0 then Some (fst ov) else maxOption)
            pvs None.

(** The selection the spec words: the strictly greatest present value, the
    running maximum starting at 0, ties keeping the earliest. *)
Definition strictlyGreatest (pvs : list (RefinanceOption * R)) : option RefinanceOption :=
  snd (fold_left (fun best ov =>
                    if Rgtb (snd ov) (fst best) then (snd ov, Some (fst ov)) else best)
                 pvs (0, None)).

(** The amount owed after [t] years, as the comment in [calcMonthlyPayment]
    solves it: [y(t) = (P - 12m/r) e^(rt) + 12m/r]. *)
Definition amountOwed (P r m t : R) : R :=
  (P - 12 * m / r) * exp (r * t) + 12 * m / r.

(** An account run month by month: the month's deposit is added to the
    balance, and the balance then earns that month's interest. *)
Fixpoint balanceFrom (deposit : Z -> R) (rates : list R) (month : Z)
    (balance : R) : R :=
  match rates with
  | [] => balance
  | annualRate :: rates' =>
      balanceFrom deposit rates' (month + 1)
        (applyMonthlyInterest (balance + deposit month) annualRate)
  end.

(** The product of the monthly factors of a list of annual rates. *)
Definition growthFactor (rates : list R) : R :=
  fold_right (fun annualRate acc => (1 + annualRate / 12) * acc) 1 rates.

(** Evaluates the list and integer parts of a closed term and leaves the real
    arithmetic in place. *)
Ltac run_lists :=
  cbv - [Rplus Rminus Rmult Rdiv Rinv Ropp IZR exp ln
         Rlt_dec Rgt_dec Rle_dec Req_dec_T].

(** ** Amortization: the two closed forms *)

Section Amortization.

Lemma py_div_ok (x y : R) : y <> 0 -> py_div x y = Ok (x / y).
Proof. intros Hy. unfold py_div. destruct (Req_dec_T y 0); [contradiction | reflexivity]. Qed.

Lemma py_div_zero (x : R) : py_div x 0 = Raise ZeroDivisionError.
Proof. unfold py_div. destruct (Req_dec_T 0 0); [reflexivity | contradiction]. Qed.

Lemma py_log_ok (x : R) : 0 < x -> py_log x = Ok (ln x).
Proof. intros Hx. unfold py_log. destruct (Rle_dec x 0); [lra | reflexivity]. Qed.

Lemma py_log_domain (x : R) : x <= 0 -> py_log x = Raise (ValueError MathDomain).
Proof. intros Hx. unfold py_log. destruct (Rle_dec x 0); [reflexivity | contradiction]. Qed.

Lemma exp_gt_1 (x : R) : 0 < x -> 1 < exp x.
Proof. intros Hx. rewrite <- exp_0. now apply exp_increasing. Qed.

(** With a positive rate and duration the payment formula is defined. *)
Lemma calcMonthlyPayment_ok (P r T fees : R) :
  0 < r -> 0 < T ->
  calcMonthlyPayment P r T fees
  = Ok ((r / 12) * P * exp (r * T) / (exp (r * T) - 1) + fees).
Proof.
  intros Hr HT. unfold calcMonthlyPayment. cbn.
  assert (1 < exp (r * T)) by (apply exp_gt_1; nra).
  rewrite py_div_ok by lra. reflexivity.
Qed.

(** The quotient under the logarithm, at the payment that retires the loan
    in [T] years, is [e^(rT)]. *)
Lemma payoff_ratio (P r E : R) :
  0 < P -> 0 < r -> 1 < E ->
  let m := (r / 12) * P * E / (E - 1) in
  12 * m - r * P = r * P / (E - 1) /\ 12 * m / (12 * m - r * P) = E.
Proof.
  intros HP Hr HE m. subst m.
  assert (Hd : 12 * (r / 12 * P * E / (E - 1)) - r * P = r * P / (E - 1))
    by (field; lra).
  split; [exact Hd |]. rewrite Hd. field. split; nra.
Qed.

(** What [calcNumPayments] does on each side of the payoff threshold. *)
Lemma calcNumPayments_cases (P r m fees : R) :
  0 < P -> 0 < r ->
  let m' := m - fees in
  (12 * m' = r * P -> calcNumPayments P r m fees = Raise ZeroDivisionError)
  /\ (0 <= 12 * m' < r * P ->
      calcNumPayments P r m fees = Raise (ValueError MathDomain))
  /\ (12 * m' < 0 \/ r * P < 12 * m' ->
      calcNumPayments P r m fees
      = Ok (12 * (1 / r) * ln (12 * m' / (12 * m' - r * P)))).
Proof.
  intros HP Hr m'. subst m'. unfold calcNumPayments. cbn.
  rewrite py_div_ok by lra.
  assert (HrP : 0 < r * P) by nra.
  repeat split.
  - intros Heq. replace (12 * (m - fees) - r * P) with 0 by lra.
    now rewrite py_div_zero.
  - intros [H0 Hlt]. rewrite py_div_ok by lra.
    rewrite py_log_domain; [reflexivity |].
    assert (Hden : 12 * (m - fees) - r * P < 0) by lra.
    assert (Hinv : / (12 * (m - fees) - r * P) < 0)
      by now apply Rinv_lt_0_compat.
    unfold Rdiv. nra.
  - intros Hside. rewrite py_div_ok by lra.
    rewrite py_log_ok; [f_equal; ring |].
    destruct Hside as [Hneg | Hpos].
    + replace (12 * (m - fees) / (12 * (m - fees) - r * P))
        with ((- (12 * (m - fees))) / (- (12 * (m - fees) - r * P)))
        by (field; lra).
      apply Rdiv_lt_0_compat; lra.
    + apply Rdiv_lt_0_compat; lra.
Qed.

End Amortization.

(** ** The traced monad and the loops *)

Section Loops.

Lemma Rltb_true (x y : R) : x < y -> Rltb x y = true.
Proof. intros H. unfold Rltb. destruct (Rlt_dec x y); [reflexivity | contradiction]. Qed.

Lemma Rltb_false (x y : R) : ~ x < y -> Rltb x y = false.
Proof. intros H. unfold Rltb. destruct (Rlt_dec x y); [contradiction | reflexivity]. Qed.

Lemma Rgtb_true (x y : R) : x > y -> Rgtb x y = true.
Proof. intros H. unfold Rgtb. destruct (Rgt_dec x y); [reflexivity | contradiction]. Qed.

Lemma Rgtb_false (x y : R) : ~ x > y -> Rgtb x y = false.
Proof. intros H. unfold Rgtb. destruct (Rgt_dec x y); [contradiction | reflexivity]. Qed.

Lemma Rgtb_spec (x y : R) : Rgtb x y = true <-> x > y.
Proof.
  unfold Rgtb. destruct (Rgt_dec x y); split; intros; try assumption;
    try reflexivity; try discriminate; contradiction.
Qed.

(** A loop whose body records one event and cannot raise is a fold. *)
Lemma for_each_pure {A S : Type} (ev : A -> event) (f : S -> A -> S)
    (body : A -> S -> traced S) (l : list A) :
  (forall x s, body x s = Traced [ev x] (Ok (f s x))) ->
  forall s, for_each l body s = Traced (map ev l) (Ok (fold_left f l s)).
Proof.
  intros Hbody. induction l as [| x xs IH]; intros s; cbn.
  - reflexivity.
  - rewrite Hbody. cbn. rewrite IH. reflexivity.
Qed.

Lemma months_map_MonthStep (l : list Z) : months (map MonthStep l) = l.
Proof.
  induction l as [| m l IH]; [reflexivity |].
  change (months (map MonthStep (m :: l))) with (m :: months (map MonthStep l)).
  now rewrite IH.
Qed.

Lemma calls_map_MonthStep (l : list Z) : calls (map MonthStep l) = [].
Proof. induction l as [| m l IH]; cbn; [reflexivity | exact IH]. Qed.

Lemma calls_app (t u : list event) : calls (t ++ u) = calls t ++ calls u.
Proof. unfold calls. apply filter_app. Qed.

End Loops.

(** ** The simulator *)

Section Simulator.

Variable o : RefinanceOption.
Variable monthlyCash : R.
Variable g : GrowthRate.
Variable horizon : Z.

Let call : event := SimulateCall o monthlyCash g horizon.

Lemma simulate_rates_too_short :
  ratesTooShort g horizon ->
  simulate o monthlyCash g horizon
  = Traced [call] (Raise (ValueError (RatesTooShort horizon))).
Proof.
  unfold ratesTooShort, simulate. destruct g as [r | rates]; [tauto |].
  intros Hlen. apply Z.ltb_lt in Hlen. cbn. rewrite Hlen. reflexivity.
Qed.

Lemma simulate_not_enough_cash :
  ~ ratesTooShort g horizon -> monthlyCash < payment o ->
  simulate o monthlyCash g horizon
  = Traced [call] (Raise (ValueError NotEnoughCash)).
Proof.
  unfold ratesTooShort, simulate. intros Hlen Hcash.
  destruct g as [r | rates]; cbn.
  - rewrite (Rltb_true _ _ Hcash). reflexivity.
  - apply Z.ltb_nlt in Hlen. rewrite Hlen. cbn.
    rewrite (Rltb_true _ _ Hcash). reflexivity.
Qed.

(** Past both guards the loop runs once per month of [range horizon] and the
    discounted terminal wealth is returned. *)
Lemma simulate_runs :
  ~ ratesTooShort g horizon -> ~ monthlyCash < payment o ->
  simulate o monthlyCash g horizon
  = Traced (call :: map MonthStep (range horizon))
           (Ok (presentValue o monthlyCash g horizon)).
Proof.
  unfold ratesTooShort, simulate. intros Hlen Hcash.
  rewrite (Rltb_false _ _ Hcash).
  assert (Hrates : match g with
                   | Scalar r => ret (list_times r horizon)
                   | RateList rates =>
                       if (Z.of_nat (length rates) <? horizon)%Z
                       then raise (ValueError (RatesTooShort horizon))
                       else ret rates
                   end = Traced [] (Ok (resolvedRates g horizon))).
  { destruct g as [r | rates]; [reflexivity |].
    apply Z.ltb_nlt in Hlen. rewrite Hlen. reflexivity. }
  rewrite Hrates.
  cbv beta iota delta [tick ret raise bind traced_monad outcome trace].
  match goal with
  | |- context [for_each ?l ?body ?s] =>
      rewrite (for_each_pure MonthStep
                 (fun W month =>
                    W + reduce applyMonthlyInterest
                          (slice (resolvedRates g horizon) month horizon)
                          (netCash o monthlyCash month))
                 body l (fun _ _ => eq_refl))
  end.
  cbn. rewrite app_nil_r. reflexivity.
Qed.

End Simulator.

(** ** Lists, slices and sums *)

Section Lists.

Lemma range_spec (n m : Z) : In m (range n) -> (0 <= m < n)%Z.
Proof.
  unfold range. rewrite in_map_iff. intros [j [<- Hj]].
  apply in_seq in Hj. lia.
Qed.

Lemma range_succ (n : nat) :
  range (Z.of_nat (S n)) = 0%Z :: map Z.of_nat (seq 1 n).
Proof. unfold range. rewrite Nat2Z.id. reflexivity. Qed.

(** Inside the loop both bounds of the slice are non-negative, and the slice
    is the part of the first [b] items that starts at index [a]. *)
Lemma slice_nonneg {A : Type} (l : list A) (a b : Z) :
  (0 <= a)%Z -> (0 <= b)%Z ->
  slice l a b = skipn (Z.to_nat a) (firstn (Z.to_nat b) l).
Proof.
  intros Ha Hb. unfold slice, clip_index.
  destruct (Z.ltb_spec a 0); [lia |]. destruct (Z.ltb_spec b 0); [lia |].
  rewrite !Z2Nat.inj_min, !Nat2Z.id.
  assert (Hfirst : firstn (Nat.min (Z.to_nat b) (length l)) l
                   = firstn (Z.to_nat b) l).
  { destruct (Nat.le_gt_cases (Z.to_nat b) (length l)) as [Hle | Hgt].
    - now rewrite Nat.min_l.
    - rewrite Nat.min_r by lia. rewrite !firstn_all2 by lia. reflexivity. }
  rewrite Hfirst.
  destruct (Nat.le_gt_cases (Z.to_nat a) (length l)) as [Hle | Hgt].
  - now rewrite Nat.min_l.
  - rewrite Nat.min_r by lia.
    assert (Hlen : (length (firstn (Z.to_nat b) l) <= length l)%nat)
      by (rewrite length_firstn; lia).
    rewrite !skipn_all2 by lia. reflexivity.
Qed.

Lemma fold_left_Rplus {A : Type} (f : A -> R) (l : list A) (a : R) :
  fold_left (fun W x => W + f x) l a = a + Rsum (map f l).
Proof.
  unfold Rsum. revert a. induction l as [| x xs IH]; intros a; cbn.
  - lra.
  - rewrite IH. lra.
Qed.

Lemma Rsum_zero {A : Type} (f : A -> R) (l : list A) :
  (forall x, In x l -> f x = 0) -> Rsum (map f l) = 0.
Proof.
  unfold Rsum. induction l as [| x xs IH]; intros Hz; cbn; [reflexivity |].
  rewrite Hz by now left. rewrite IH; [lra |].
  intros y Hy. apply Hz. now right.
Qed.

Lemma Rsum_ext {A : Type} (f f' : A -> R) (l : list A) :
  (forall x, In x l -> f x = f' x) -> Rsum (map f l) = Rsum (map f' l).
Proof. intros Hext. f_equal. now apply map_ext_in. Qed.

(** The terminal wealth is the sum, over the months, of that month's net
    cash carried through the rates from that month to the horizon. *)
Lemma terminalWealth_sum (o : RefinanceOption) (monthlyCash : R)
    (rates : list R) (horizon : Z) :
  terminalWealth o monthlyCash rates horizon
  = Rsum (map (fun month =>
                 reduce applyMonthlyInterest
                        (skipn (Z.to_nat month) (firstn (Z.to_nat horizon) rates))
                        (netCash o monthlyCash month))
              (range horizon)).
Proof.
  unfold terminalWealth. rewrite fold_left_Rplus, Rplus_0_l.
  apply Rsum_ext. intros month Hm. apply range_spec in Hm.
  rewrite slice_nonneg by lia. reflexivity.
Qed.

Lemma reduce_zero (l : list R) : reduce applyMonthlyInterest l 0 = 0.
Proof.
  unfold reduce. induction l as [| r l IH]; cbn; [reflexivity |].
  unfold applyMonthlyInterest at 2. now rewrite Rmult_0_l.
Qed.

Lemma reduce_repeat (r x : R) (n : nat) :
  reduce applyMonthlyInterest (repeat r n) x = compound x r n.
Proof.
  unfold reduce, compound. revert x.
  induction n as [| n IH]; intros x; [reflexivity |].
  rewrite Nat.iter_succ_r. cbn [repeat fold_left]. apply IH.
Qed.

Lemma compound_pow (x r : R) (n : nat) : compound x r n = x * (1 + r / 12) ^ n.
Proof.
  unfold compound. induction n as [| n IH].
  - cbn. ring.
  - rewrite Nat.iter_succ, IH. unfold applyMonthlyInterest. cbn [pow]. ring.
Qed.

(** [reduce applyMonthlyInterest] is linear in its starting value. *)
Lemma reduce_plus (l : list R) (x y : R) :
  reduce applyMonthlyInterest l (x + y)
  = reduce applyMonthlyInterest l x + reduce applyMonthlyInterest l y.
Proof.
  unfold reduce. revert x y. induction l as [| r l IH]; intros x y; cbn.
  - reflexivity.
  - rewrite <- IH. f_equal. unfold applyMonthlyInterest. ring.
Qed.

(** Depositing every month and letting the balance grow gives the same
    wealth as following each deposit on its own to the end. *)
Lemma investEveryMonth_sum (deposit : R) (rates : list R) :
  investEveryMonth deposit rates
  = Rsum (map (fun j => reduce applyMonthlyInterest (skipn j rates) deposit)
              (seq 0 (length rates))).
Proof.
  unfold investEveryMonth.
  assert (Hgen : forall l balance,
             fold_left (fun b a => applyMonthlyInterest (b + deposit) a) l balance
             = reduce applyMonthlyInterest l balance
               + Rsum (map (fun j => reduce applyMonthlyInterest (skipn j l) deposit)
                           (seq 0 (length l)))).
  { pose proof reduce_plus as Hplus. unfold reduce, Rsum in *.
    induction l as [| a l IH]; intros balance.
    - cbn. lra.
    - assert (Hsplit : applyMonthlyInterest (balance + deposit) a
                       = applyMonthlyInterest balance a
                         + applyMonthlyInterest deposit a)
        by (unfold applyMonthlyInterest; ring).
      cbn [fold_left length seq map fold_right skipn].
      rewrite IH, Hsplit, Hplus, <- seq_shift, map_map.
      cbn [skipn]. lra. }
  rewrite Hgen, reduce_zero. lra.
Qed.

End Lists.

(** ** The comparator *)

Section Comparator.

(** [max] over floats returns an upper bound of its items. *)
Lemma py_max_R_upper (l : list R) (m : R) :
  py_max Rgtb l = Ok m -> forall x, In x l -> x <= m.
Proof.
  destruct l as [| x0 xs]; [discriminate |]. cbn [py_max]. intros [= <-].
  assert (Hfold : forall l a,
             a <= fold_left (fun m item => if Rgtb item m then item else m) l a
             /\ forall x, In x l ->
                  x <= fold_left (fun m item => if Rgtb item m then item else m) l a).
  { induction l as [| y l IH]; intros a; cbn [fold_left].
    - split; [lra | intros ? []].
    - set (a' := if Rgtb y a then y else a).
      assert (Ha' : a <= a' /\ y <= a').
      { subst a'. unfold Rgtb. destruct (Rgt_dec y a); lra. }
      destruct (IH a') as [H1 H2]. split; [lra |].
      intros x [<- | Hx]; [lra | now apply H2]. }
  destruct (Hfold xs x0) as [H1 H2].
  intros x [<- | Hx]; [exact H1 | now apply H2].
Qed.

(** [max] over integers that are all zero is zero. *)
Lemma py_max_Z_zeros (l : list Z) :
  l <> [] -> (forall x, In x l -> x = 0%Z) -> py_max Z.gtb l = Ok 0%Z.
Proof.
  destruct l as [| x0 xs]; [congruence |]. intros _ Hz. cbn [py_max].
  rewrite (Hz x0) by now left.
  assert (Hxs : forall x, In x xs -> x = 0%Z) by (intros x Hx; apply Hz; now right).
  clear Hz. induction xs as [| y ys IH]; [reflexivity |].
  cbn [fold_left]. rewrite (Hxs y) by now left. cbn.
  apply IH. intros x Hx. apply Hxs. now right.
Qed.

Lemma py_max_nonempty {A : Type} (gt : A -> A -> bool) (l : list A) :
  l <> [] -> exists m, py_max gt l = Ok m.
Proof. destruct l; [congruence | intros _; eexists; reflexivity]. Qed.

Variable g : GrowthRate.
Variable monthlyCash : R.
Variable horizon : Z.

(** The body of the loop over the options. *)
Let body (opt : RefinanceOption) (maxOption : option RefinanceOption)
  : traced (option RefinanceOption) :=
  val <- simulate opt monthlyCash g horizon ;;
  if Rgtb val 0 then ret (Some opt) else ret maxOption.

Let pvs (opts : list RefinanceOption) : list (RefinanceOption * R) :=
  map (fun o => (o, presentValue o monthlyCash g horizon)) opts.

(** When every call of [simulate] gets past its guards, the loop calls it once
    per option, in order, and ends with the last option above zero. *)
Lemma compare_loop_runs (opts : list RefinanceOption) :
  ~ ratesTooShort g horizon ->
  (forall o, In o opts -> ~ monthlyCash < payment o) ->
  forall maxOption,
    outcome (for_each opts body maxOption)
    = Ok (fold_left (fun acc ov => if Rgtb (snd ov) 0 then Some (fst ov) else acc)
                    (pvs opts) maxOption)
    /\ calls (trace (for_each opts body maxOption))
       = map (fun o => SimulateCall o monthlyCash g horizon) opts.
Proof.
  intros Hrates. induction opts as [| o opts IH]; intros Hcash maxOption.
  - split; reflexivity.
  - assert (Hsim := simulate_runs o monthlyCash g horizon Hrates
                      (Hcash o (or_introl eq_refl))).
    assert (Hbody : body o maxOption
                    = Traced (SimulateCall o monthlyCash g horizon
                              :: map MonthStep (range horizon))
                             (Ok (if Rgtb (presentValue o monthlyCash g horizon) 0
                                  then Some o else maxOption))).
    { unfold body. rewrite Hsim. cbn.
      destruct (Rgtb (presentValue o monthlyCash g horizon) 0); cbn;
        now rewrite app_nil_r. }
    cbn [for_each]. rewrite Hbody.
    destruct (IH (fun o' Ho' => Hcash o' (or_intror Ho'))
                 (if Rgtb (presentValue o monthlyCash g horizon) 0
                  then Some o else maxOption)) as [IHout IHcalls].
    cbn [bind traced_monad outcome trace]. split.
    + rewrite IHout. reflexivity.
    + change (?x :: ?l ++ ?r) with ((x :: l) ++ r).
      rewrite calls_app, IHcalls. cbn [calls filter].
      fold (calls (map MonthStep (range horizon))).
      rewrite calls_map_MonthStep. reflexivity.
Qed.

(** When the rate list is too short the first call raises and the loop stops. *)
Lemma compare_loop_raises (o : RefinanceOption) (opts : list RefinanceOption)
    (maxOption : option RefinanceOption) :
  ratesTooShort g horizon ->
  for_each (o :: opts) body maxOption
  = Traced [SimulateCall o monthlyCash g horizon]
           (Raise (ValueError (RatesTooShort horizon))).
Proof.
  intros Hrates. cbn [for_each]. unfold body.
  rewrite (simulate_rates_too_short o monthlyCash g horizon Hrates).
  reflexivity.
Qed.

Lemma bind_lift_ok {A B : Type} (a : A) (k : A -> traced B) :
  (x <- lift (Ok a) ;; k x) = k a.
Proof. cbn. destruct (k a). reflexivity. Qed.

Lemma bind_ret_traced {A : Type} (c : traced A) : (x <- c ;; ret x) = c.
Proof.
  destruct c as [t [a | e]]; cbn; [now rewrite app_nil_r | reflexivity].
Qed.

(** Once the shared budget and horizon are known, [compareRefiOptions] is
    its loop. *)
Lemma compareRefiOptions_loop (opts : list RefinanceOption) :
  py_max Rgtb (map payment opts) = Ok monthlyCash ->
  py_max Z.gtb (map term opts) = Ok horizon ->
  compareRefiOptions g opts = for_each opts body None.
Proof.
  intros Hcash Hhor. unfold compareRefiOptions. rewrite Hcash, Hhor.
  rewrite !bind_lift_ok. cbv beta zeta. apply bind_ret_traced.
Qed.

End Comparator.

(** [compareRefiOptions] on a non-empty list, when no call of [simulate]
    raises: one call per option, in input order, with the shared budget and
    horizon, and the last option whose present value is above zero. *)
Lemma compareRefiOptions_runs (g : GrowthRate) (opts : list RefinanceOption)
    (monthlyCash : R) (horizon : Z) :
  py_max Rgtb (map payment opts) = Ok monthlyCash ->
  py_max Z.gtb (map term opts) = Ok horizon ->
  ~ ratesTooShort g horizon ->
  outcome (compareRefiOptions g opts)
  = Ok (lastAboveZero
          (map (fun o => (o, presentValue o monthlyCash g horizon)) opts))
  /\ calls (trace (compareRefiOptions g opts))
     = map (fun o => SimulateCall o monthlyCash g horizon) opts.
Proof.
  intros Hcash Hhor Hrates.
  rewrite (compareRefiOptions_loop g monthlyCash horizon opts Hcash Hhor).
  apply compare_loop_runs; [exact Hrates |].
  intros o Ho. apply Rle_not_lt.
  apply (py_max_R_upper _ _ Hcash). now apply in_map.
Qed.

(** ** Properties of the amortization formulas *)

(** C4.  For a principal [P > 0], a rate [r > 0] and [years > 0], the payment
    formula is defined, the duration formula is defined at the payment it
    returns, and the duration is [years * 12]: over the reals the round trip
    is exact. *)
Theorem calcNumPayments_calcMonthlyPayment_roundtrip (P r years : R) :
  0 < P -> 0 < r -> 0 < years ->
  exists m,
    calcMonthlyPayment P r years 0 = Ok m
    /\ calcNumPayments P r m 0 = Ok (years * 12).
Proof.
  intros HP Hr HT.
  assert (HE : 1 < exp (r * years)) by (apply exp_gt_1; nra).
  eexists. split; [now apply calcMonthlyPayment_ok |].
  destruct (payoff_ratio P r (exp (r * years)) HP Hr HE) as [Hden Hratio].
  cbv zeta in Hden, Hratio.
  set (m := r / 12 * P * exp (r * years) / (exp (r * years) - 1)) in *.
  assert (HrP : 0 < r * P) by nra.
  assert (Hpos : 0 < r * P / (exp (r * years) - 1))
    by (apply Rdiv_lt_0_compat; lra).
  destruct (calcNumPayments_cases P r (m + 0) 0 HP Hr) as [_ [_ Hok]].
  cbv zeta in Hok.
  replace (m + 0 - 0) with m in Hok by ring.
  rewrite Hok by (right; lra).
  rewrite Hratio, ln_exp. f_equal. field. lra.
Qed.

Lemma calcNumPayments_calcMonthlyPayment_roundtrip_witness :
  exists m,
    calcMonthlyPayment 300000 0.04 30 0 = Ok m
    /\ calcNumPayments 300000 0.04 m 0 = Ok (30 * 12).
Proof.
  apply (calcNumPayments_calcMonthlyPayment_roundtrip 300000 0.04 30); lra.
Defined.

(** C6, as the code has it.  For [P > 0] and [r > 0], with the net payment
    [m' = m - fees]: [calcNumPayments] raises exactly when
    [0 <= 12 m' <= r P] (a division by zero when [12 m' = r P], a logarithm
    outside its domain when [0 <= 12 m' < r P]), and in every other case,
    a negative net payment included, it returns
    [12 * (1/r) * ln (12 m' / (12 m' - r P))]. *)
Theorem calcNumPayments_raises_iff (P r m fees : R) :
  0 < P -> 0 < r ->
  let m' := m - fees in
  ((exists e, calcNumPayments P r m fees = Raise e) <-> 0 <= 12 * m' <= r * P)
  /\ (12 * m' = r * P -> calcNumPayments P r m fees = Raise ZeroDivisionError)
  /\ (0 <= 12 * m' < r * P ->
      calcNumPayments P r m fees = Raise (ValueError MathDomain))
  /\ (~ 0 <= 12 * m' <= r * P ->
      calcNumPayments P r m fees
      = Ok (12 * (1 / r) * ln (12 * m' / (12 * m' - r * P)))).
Proof.
  intros HP Hr m'.
  destruct (calcNumPayments_cases P r m fees HP Hr) as [Hzero [Hdom Hok]].
  fold m' in Hzero, Hdom, Hok.
  assert (Hreturns : ~ 0 <= 12 * m' <= r * P ->
                     calcNumPayments P r m fees
                     = Ok (12 * (1 / r) * ln (12 * m' / (12 * m' - r * P)))).
  { intros Hout. apply Hok.
    destruct (Rlt_dec (12 * m') 0); [now left | right].
    destruct (Rlt_dec (r * P) (12 * m')); [assumption | exfalso; apply Hout; lra]. }
  split; [split | split; [exact Hzero | split; [exact Hdom | exact Hreturns]]].
  - intros [e He].
    destruct (Rle_dec 0 (12 * m')) as [Hnn | Hneg];
      [destruct (Rle_dec (12 * m') (r * P)) as [Hle | Hgt] |].
    + split; assumption.
    + rewrite Hreturns in He by lra. discriminate.
    + rewrite Hreturns in He by lra. discriminate.
  - intros [H0 Hle].
    destruct (Req_dec_T (12 * m') (r * P)) as [Heq | Hne].
    + eexists. now apply Hzero.
    + eexists. apply Hdom. lra.
Qed.

Lemma calcNumPayments_raises_iff_witness :
  calcNumPayments 300000 0.04 500 0 = Raise (ValueError MathDomain)
  /\ calcNumPayments 300000 0.04 1000 0 = Raise ZeroDivisionError.
Proof.
  assert (HP : 0 < 300000) by lra. assert (Hr : 0 < 0.04) by lra.
  split.
  - destruct (calcNumPayments_raises_iff 300000 0.04 500 0 HP Hr)
      as [_ [_ [Hdom _]]].
    apply Hdom. lra.
  - destruct (calcNumPayments_raises_iff 300000 0.04 1000 0 HP Hr)
      as [_ [Hzero _]].
    apply Hzero. lra.
Defined.

(** C6, as stated, fails for a negative net payment: with [P = 1200],
    [r = 0.05], [m = 0] and [fees = 5] the net payment satisfies
    [12 m' <= r P], and [calcNumPayments] returns instead of raising. *)
Lemma calcNumPayments_negative_net_payment_returns :
  12 * (0 - 5) <= 0.05 * 1200
  /\ calcNumPayments 1200 0.05 0 5
     = Ok (12 * (1 / 0.05) * ln (12 * (0 - 5) / (12 * (0 - 5) - 0.05 * 1200)))
  /\ ~ (exists e, calcNumPayments 1200 0.05 0 5 = Raise e).
Proof.
  assert (HP : 0 < 1200) by lra. assert (Hr : 0 < 0.05) by lra.
  destruct (calcNumPayments_cases 1200 0.05 0 5 HP Hr) as [_ [_ Hok]].
  cbv zeta in Hok.
  assert (Hside : 12 * (0 - 5) < 0 \/ 0.05 * 1200 < 12 * (0 - 5)) by (left; lra).
  split; [lra | split; [exact (Hok Hside) |]].
  intros [e He]. rewrite (Hok Hside) in He. discriminate.
Qed.

(** ** Properties of the simulator *)

Lemma ratesTooShort_dec (g : GrowthRate) (horizon : Z) :
  {ratesTooShort g horizon} + {~ ratesTooShort g horizon}.
Proof.
  destruct g as [r | rates]; cbn; [right; tauto | apply Z_lt_dec].
Qed.

(** If [simulate] returns, both guards were passed and the value is the
    discounted terminal wealth. *)
Lemma simulate_Ok_inv (o : RefinanceOption) (monthlyCash : R) (g : GrowthRate)
    (horizon : Z) (v : R) :
  outcome (simulate o monthlyCash g horizon) = Ok v ->
  ~ ratesTooShort g horizon /\ ~ monthlyCash < payment o
  /\ v = presentValue o monthlyCash g horizon.
Proof.
  intros Hv.
  destruct (ratesTooShort_dec g horizon) as [Hshort | Hlong].
  - rewrite simulate_rates_too_short in Hv by assumption. discriminate.
  - destruct (Rlt_dec monthlyCash (payment o)) as [Hlow | Hhigh].
    + rewrite simulate_not_enough_cash in Hv by assumption. discriminate.
    + rewrite simulate_runs in Hv by assumption. cbn in Hv.
      injection Hv as <-. tauto.
Qed.

(** C3.  [simulate] raises if and only if the growth rate is a list shorter
    than the horizon or the monthly cash is less than the option's payment;
    when it raises, no month has been simulated; otherwise every month of
    the horizon is simulated and a present value is returned. *)
Theorem simulate_raises_iff (o : RefinanceOption) (monthlyCash : R)
    (g : GrowthRate) (horizon : Z) :
  let guarded := ratesTooShort g horizon \/ monthlyCash < payment o in
  ((exists e, outcome (simulate o monthlyCash g horizon) = Raise e) <-> guarded)
  /\ (guarded ->
      trace (simulate o monthlyCash g horizon)
      = [SimulateCall o monthlyCash g horizon])
  /\ (~ guarded ->
      months (trace (simulate o monthlyCash g horizon)) = range horizon
      /\ exists v, outcome (simulate o monthlyCash g horizon) = Ok v).
Proof.
  intros guarded. subst guarded.
  assert (Hstop : ratesTooShort g horizon \/ monthlyCash < payment o ->
                  exists e, simulate o monthlyCash g horizon
                            = Traced [SimulateCall o monthlyCash g horizon]
                                     (Raise e)).
  { intros Hg. destruct (ratesTooShort_dec g horizon) as [Hshort | Hlong].
    - eexists. now apply simulate_rates_too_short.
    - destruct Hg as [Hshort | Hlow]; [contradiction |].
      eexists. now apply simulate_not_enough_cash. }
  split; [split |]; [| | split].
  - intros [e He].
    destruct (ratesTooShort_dec g horizon) as [Hshort | Hlong]; [now left |].
    destruct (Rlt_dec monthlyCash (payment o)) as [Hlow | Hhigh]; [now right |].
    rewrite simulate_runs in He by assumption. discriminate.
  - intros Hg. destruct (Hstop Hg) as [e He]. exists e. now rewrite He.
  - intros Hg. destruct (Hstop Hg) as [e He]. now rewrite He.
  - intros Hpass.
    rewrite simulate_runs by tauto. cbn [trace outcome]. split.
    + change (months (?c :: ?t)) with (months t).
      apply months_map_MonthStep.
    + eexists. reflexivity.
Qed.

(** C8.  A scalar growth rate gives the same result as the list made of
    [horizon] copies of it, and the same months are simulated. *)
Theorem simulate_scalar_eq_schedule (o : RefinanceOption) (monthlyCash r : R)
    (horizon : Z) :
  outcome (simulate o monthlyCash (Scalar r) horizon)
  = outcome (simulate o monthlyCash (RateList (repeat r (Z.to_nat horizon))) horizon)
  /\ months (trace (simulate o monthlyCash (Scalar r) horizon))
     = months (trace (simulate o monthlyCash
                               (RateList (repeat r (Z.to_nat horizon))) horizon)).
Proof.
  assert (Hscalar : ~ ratesTooShort (Scalar r) horizon) by (cbn; tauto).
  assert (Hlist : ~ ratesTooShort (RateList (repeat r (Z.to_nat horizon))) horizon).
  { cbn. rewrite repeat_length. lia. }
  destruct (Rlt_dec monthlyCash (payment o)) as [Hlow | Hhigh].
  - rewrite !simulate_not_enough_cash by assumption. split; reflexivity.
  - rewrite !simulate_runs by assumption. split; reflexivity.
Qed.

(** When the budget equals the payment and the term covers the horizon, only
    the closing cost of month 0 is ever invested (as a debt), and it is
    carried through all [horizon] months. *)
Lemma terminalWealth_breakeven (o : RefinanceOption) (monthlyCash r : R)
    (horizon : Z) :
  monthlyCash = payment o -> (0 < horizon)%Z -> (horizon <= term o)%Z ->
  terminalWealth o monthlyCash (list_times r horizon) horizon
  = compound (- cost o) r (Z.to_nat horizon).
Proof.
  intros Hcash Hpos Hterm.
  assert (Hh : exists n, horizon = Z.of_nat (S n))
    by (exists (Z.to_nat (horizon - 1)); lia).
  destruct Hh as [n ->].
  rewrite terminalWealth_sum, range_succ.
  unfold list_times. rewrite Nat2Z.id.
  rewrite firstn_all2 by (rewrite repeat_length; lia).
  cbn [map Rsum fold_right].
  change (Z.to_nat 0) with 0%nat. cbn [skipn].
  rewrite Rsum_zero.
  - rewrite Rplus_0_r, reduce_repeat. f_equal.
    unfold netCash. destruct (Z.ltb_spec 0 (term o)); [| lia].
    cbn [Z.eqb]. rewrite Hcash. ring.
  - intros month Hm. apply in_map_iff in Hm. destruct Hm as [j [<- Hj]].
    apply in_seq in Hj.
    unfold netCash.
    destruct (Z.ltb_spec (Z.of_nat j) (term o)); [| lia].
    destruct (Z.eqb_spec (Z.of_nat j) 0); [lia |].
    rewrite Hcash, Rminus_diag. apply reduce_zero.
Qed.

(** C2, as the code has it.  In the scenario of a 1432.25 payment over 360
    months with a 5000 closing cost, a 1432.25 budget, a 5% growth rate and
    a 360-month horizon, [simulate] returns the month-0 net cash of -5000
    compounded 360 months (every month of the horizon, month 0 included) and
    discounted by [e^(-0.03 * 360 / 12)]. *)
Theorem simulate_scenario_compounds_360 :
  outcome (simulate (mkRefinanceOption 1432.25 360 5000) 1432.25 (Scalar 0.05) 360)
  = Ok (compound (- 5000) 0.05 360 * exp (- 0.03 * 360 / 12)).
Proof.
  rewrite simulate_runs; [| cbn; tauto | cbn; lra].
  cbn [outcome]. unfold presentValue, resolvedRates.
  rewrite terminalWealth_breakeven; [| reflexivity | lia | cbn; lia].
  unfold discounted, INFLATION. cbn [cost].
  replace (Ropp 5000) with (- 5000) by lra.
  replace (Ropp 0.03 * 360 / 12) with (- 0.03 * 360 / 12) by lra.
  reflexivity.
Qed.

(** C2, as stated, fails: the value returned is not -5000 compounded 359
    months and discounted. *)
Lemma simulate_scenario_not_359 :
  outcome (simulate (mkRefinanceOption 1432.25 360 5000) 1432.25 (Scalar 0.05) 360)
  <> Ok (compound (- 5000) 0.05 359 * exp (- 0.03 * 360 / 12)).
Proof.
  rewrite simulate_runs; [| cbn; tauto | cbn; lra].
  cbn [outcome]. unfold presentValue, resolvedRates.
  rewrite terminalWealth_breakeven; [| reflexivity | lia | cbn; lia].
  unfold discounted, INFLATION. cbn [cost].
  replace (Ropp 5000) with (- 5000) by lra.
  replace (Ropp 0.03 * 360 / 12) with (- 0.03 * 360 / 12) by lra.
  change (Z.to_nat 360) with (S 359).
  rewrite !compound_pow, <- (tech_pow_Rmult (1 + 0.05 / 12) 359).
  assert (Hq : 0 < (1 + 0.05 / 12) ^ 359) by (apply pow_lt; lra).
  assert (He : 0 < exp (- 0.03 * 360 / 12)) by apply exp_pos.
  set (q := (1 + 0.05 / 12) ^ 359) in *.
  set (e := exp (- 0.03 * 360 / 12)) in *.
  assert (Hqe : 0 < q * e) by now apply Rmult_lt_0_compat.
  intros [= Heq]. nra.
Qed.

(** C9, as the code has it.  For an option with no cost and a zero term,
    whenever the call passes the two guards of [simulate], the result is the
    baseline of depositing the whole budget every month, under the rates of
    the months of the horizon, discounted: the mortgage contributes nothing. *)
Theorem simulate_no_mortgage_baseline (o : RefinanceOption) (monthlyCash : R)
    (g : GrowthRate) (horizon : Z) :
  cost o = 0 -> term o = 0%Z ->
  ~ ratesTooShort g horizon -> ~ monthlyCash < payment o ->
  outcome (simulate o monthlyCash g horizon)
  = Ok (discounted
          (investEveryMonth monthlyCash
             (firstn (Z.to_nat horizon) (resolvedRates g horizon)))
          horizon).
Proof.
  intros Hcost Hterm Hrates Hcash.
  rewrite simulate_runs by assumption. cbn [outcome].
  unfold presentValue. do 2 f_equal.
  rewrite terminalWealth_sum, investEveryMonth_sum.
  set (L := firstn (Z.to_nat horizon) (resolvedRates g horizon)).
  assert (HL : length L = Z.to_nat horizon).
  { subst L. rewrite length_firstn. apply Nat.min_l.
    destruct g as [r | rates]; cbn in *.
    - unfold list_times. now rewrite repeat_length.
    - lia. }
  rewrite HL. unfold range. rewrite map_map.
  apply Rsum_ext. intros j Hj. rewrite Nat2Z.id. f_equal.
  unfold netCash. rewrite Hterm, Hcost.
  destruct (Z.ltb_spec (Z.of_nat j) 0); [lia |].
  destruct (Z.of_nat j =? 0)%Z; ring.
Qed.

Lemma simulate_no_mortgage_baseline_witness :
  outcome (simulate (mkRefinanceOption 0 0 0) 100 (RateList [0.06; 0.12; 0.24]) 2)
  = Ok (discounted (investEveryMonth 100 [0.06; 0.12]) 2).
Proof.
  apply (simulate_no_mortgage_baseline
           (mkRefinanceOption 0 0 0) 100 (RateList [0.06; 0.12; 0.24]) 2);
    cbn; solve [reflexivity | lia | lra].
Defined.

(** C9, as stated, fails when the budget is below the payment: the option has
    no cost and a zero term, and [simulate] raises instead of returning the
    baseline. *)
Lemma simulate_no_mortgage_still_guarded :
  cost (mkRefinanceOption 2 0 0) = 0 /\ term (mkRefinanceOption 2 0 0) = 0%Z
  /\ outcome (simulate (mkRefinanceOption 2 0 0) 1 (Scalar 0) 1)
     = Raise (ValueError NotEnoughCash)
  /\ outcome (simulate (mkRefinanceOption 2 0 0) 1 (Scalar 0) 1)
     <> Ok (discounted (investEveryMonth 1 [0]) 1).
Proof.
  assert (Hraise : outcome (simulate (mkRefinanceOption 2 0 0) 1 (Scalar 0) 1)
                   = Raise (ValueError NotEnoughCash)).
  { rewrite simulate_not_enough_cash; [reflexivity | cbn; tauto | cbn; lra]. }
  repeat split; try reflexivity; [exact Hraise |].
  rewrite Hraise. discriminate.
Qed.

(** ** Properties of the comparator *)

Lemma lastAboveZero_none (pvs : list (RefinanceOption * R)) :
  (forall ov, In ov pvs -> ~ snd ov > 0) -> lastAboveZero pvs = None.
Proof.
  unfold lastAboveZero. induction pvs as [| ov pvs IH]; intros Hall.
  - reflexivity.
  - cbn [fold_left]. rewrite Rgtb_false by (apply Hall; now left).
    apply IH. intros ov' Hov'. apply Hall. now right.
Qed.

Lemma presentValue_zero_horizon (o : RefinanceOption) (monthlyCash : R)
    (g : GrowthRate) :
  presentValue o monthlyCash g 0 = 0.
Proof. unfold presentValue, discounted, terminalWealth. cbn [range]. apply Rmult_0_l. Qed.

(** C7.  With no option at all, [compareRefiOptions] raises at the first
    [max], before any call of [simulate]. *)
Theorem compareRefiOptions_empty_raises (g : GrowthRate) :
  compareRefiOptions g [] = Traced [] (Raise (ValueError EmptyMax)).
Proof. reflexivity. Qed.

(** C5.  With the shared budget and horizon of a non-empty list of options,
    if every option has a present value and none is above zero, the result
    is no option, not an error.  With a single option, whose budget and
    horizon are its own payment and term, the option is returned exactly
    when its present value is positive, and no option is returned when it is
    zero or negative. *)
Theorem compareRefiOptions_none_unless_above_zero :
  (forall g opts monthlyCash horizon,
      py_max Rgtb (map payment opts) = Ok monthlyCash ->
      py_max Z.gtb (map term opts) = Ok horizon ->
      (forall o, In o opts ->
         exists v, outcome (simulate o monthlyCash g horizon) = Ok v /\ ~ v > 0) ->
      outcome (compareRefiOptions g opts) = Ok None)
  /\ (forall g o v,
        outcome (simulate o (payment o) g (term o)) = Ok v ->
        (outcome (compareRefiOptions g [o]) = Ok (Some o) <-> v > 0)
        /\ (v <= 0 -> outcome (compareRefiOptions g [o]) = Ok None)).
Proof.
  split.
  - intros g opts monthlyCash horizon Hcash Hhor Hall.
    assert (Hrates : ~ ratesTooShort g horizon).
    { destruct opts as [| o opts]; [discriminate |].
      destruct (Hall o (or_introl eq_refl)) as [v [Hv _]].
      now apply simulate_Ok_inv in Hv. }
    destruct (compareRefiOptions_runs g opts monthlyCash horizon Hcash Hhor Hrates)
      as [Hout _].
    rewrite Hout. f_equal. apply lastAboveZero_none.
    intros ov Hov. apply in_map_iff in Hov. destruct Hov as [o [<- Ho]].
    destruct (Hall o Ho) as [v [Hv Hle]].
    apply simulate_Ok_inv in Hv. destruct Hv as [_ [_ <-]]. exact Hle.
  - intros g o v Hv.
    apply simulate_Ok_inv in Hv. destruct Hv as [Hrates [_ ->]].
    destruct (compareRefiOptions_runs g [o] (payment o) (term o)
                eq_refl eq_refl Hrates) as [Hout _].
    rewrite Hout. unfold lastAboveZero. cbn [map fold_left fst snd].
    unfold Rgtb.
    destruct (Rgt_dec (presentValue o (payment o) g (term o)) 0) as [Hpos | Hneg].
    + split; [tauto | lra].
    + split; [| reflexivity]. split; [discriminate | contradiction].
Qed.

Lemma compareRefiOptions_none_unless_above_zero_witness :
  outcome (compareRefiOptions (Scalar 0) [mkRefinanceOption 1 2 5]) = Ok None.
Proof.
  destruct compareRefiOptions_none_unless_above_zero as [Hnone _].
  apply (Hnone (Scalar 0) [mkRefinanceOption 1 2 5] 1 2%Z); try reflexivity.
  intros o [<- | []].
  rewrite simulate_runs; [| cbn; tauto | cbn; lra].
  eexists. split; [reflexivity |].
  unfold presentValue, discounted.
  assert (Hw : terminalWealth (mkRefinanceOption 1 2 5) 1
                 (resolvedRates (Scalar 0) 2) 2 = - 5)
    by (run_lists; lra).
  rewrite Hw.
  assert (He : 0 < exp (- INFLATION * 2 / 12)) by apply exp_pos.
  lra.
Defined.

(** C10, as the code has it.  A zero horizon is accepted: no rate list is too
    short for it and [simulate] runs no iteration of its loop; with a budget
    that covers the payment it does not raise and returns exactly 0.  Hence
    [compareRefiOptions], on options whose terms are all zero (its budget,
    the greatest payment, covers every payment), returns no option. *)
Theorem simulate_zero_horizon :
  (forall o monthlyCash g,
      ~ ratesTooShort g 0
      /\ months (trace (simulate o monthlyCash g 0)) = []
      /\ (~ monthlyCash < payment o ->
          simulate o monthlyCash g 0
          = Traced [SimulateCall o monthlyCash g 0] (Ok 0)))
  /\ (forall g opts,
        opts <> [] -> (forall o, In o opts -> term o = 0%Z) ->
        outcome (compareRefiOptions g opts) = Ok None).
Proof.
  assert (Hrates : forall g, ~ ratesTooShort g 0)
    by (intros [r | rates]; cbn; [tauto | lia]).
  split.
  - intros o monthlyCash g.
    assert (Hruns : ~ monthlyCash < payment o ->
                    simulate o monthlyCash g 0
                    = Traced [SimulateCall o monthlyCash g 0] (Ok 0)).
    { intros Hcash. rewrite simulate_runs by auto.
      now rewrite presentValue_zero_horizon. }
    split; [apply Hrates | split; [| exact Hruns]].
    destruct (Rlt_dec monthlyCash (payment o)) as [Hlow | Hhigh].
    + rewrite simulate_not_enough_cash by auto. reflexivity.
    + rewrite Hruns by assumption. reflexivity.
  - intros g opts Hne Hterms.
    assert (Hne' : map payment opts <> [])
      by (destruct opts; [congruence | discriminate]).
    destruct (py_max_nonempty Rgtb _ Hne') as [monthlyCash Hcash].
    assert (Hhor : py_max Z.gtb (map term opts) = Ok 0%Z).
    { apply py_max_Z_zeros.
      - destruct opts; [congruence | discriminate].
      - intros x Hx. apply in_map_iff in Hx. destruct Hx as [o [<- Ho]].
        now apply Hterms. }
    destruct (compareRefiOptions_runs g opts monthlyCash 0 Hcash Hhor (Hrates g))
      as [Hout _].
    rewrite Hout. f_equal. apply lastAboveZero_none.
    intros ov Hov. apply in_map_iff in Hov. destruct Hov as [o [<- Ho]].
    cbn [snd]. rewrite presentValue_zero_horizon. lra.
Qed.

Lemma simulate_zero_horizon_witness :
  simulate (mkRefinanceOption 1 0 0) 1 (Scalar 0.05) 0
  = Traced [SimulateCall (mkRefinanceOption 1 0 0) 1 (Scalar 0.05) 0] (Ok 0)
  /\ outcome (compareRefiOptions (Scalar 0.05)
                [mkRefinanceOption 1 0 0; mkRefinanceOption 2 0 5])
     = Ok None.
Proof.
  destruct simulate_zero_horizon as [Hsim Hcmp]. split.
  - apply Hsim. cbn. lra.
  - apply Hcmp; [discriminate |].
    intros o [<- | [<- | []]]; reflexivity.
Defined.

(** C10, as stated, fails when the budget is below the payment: with a zero
    horizon the guard on the monthly cash still runs, and [simulate] raises
    instead of returning 0. *)
Lemma simulate_zero_horizon_still_guarded :
  outcome (simulate (mkRefinanceOption 2 0 0) 1 (Scalar 0.05) 0)
  = Raise (ValueError NotEnoughCash)
  /\ outcome (simulate (mkRefinanceOption 2 0 0) 1 (Scalar 0.05) 0) <> Ok 0.
Proof.
  assert (Hraise : outcome (simulate (mkRefinanceOption 2 0 0) 1 (Scalar 0.05) 0)
                   = Raise (ValueError NotEnoughCash)).
  { rewrite simulate_not_enough_cash; [reflexivity | cbn; tauto | cbn; lra]. }
  split; [exact Hraise |]. rewrite Hraise. discriminate.
Qed.

(** C1, at an input where the code departs from it.  For the options
    [A = (payment 1, term 2, cost 0)] and [B = (payment 2, term 1, cost 1)]
    and a zero growth rate, [compareRefiOptions] calls [simulate] once per
    option, in input order, with the shared budget 2 and horizon 2; both
    present values are positive and that of [A] is strictly the greatest, so
    [A] is the option of the specified rule; the code returns [B], the last
    option above zero. *)
Theorem compareRefiOptions_returns_last_above_zero :
  let A := mkRefinanceOption 1 2 0 in
  let B := mkRefinanceOption 2 1 1 in
  let g := Scalar 0 in
  calls (trace (compareRefiOptions g [A; B]))
  = [SimulateCall A 2 g 2; SimulateCall B 2 g 2]
  /\ outcome (simulate A 2 g 2) = Ok (presentValue A 2 g 2)
  /\ outcome (simulate B 2 g 2) = Ok (presentValue B 2 g 2)
  /\ 0 < presentValue B 2 g 2 < presentValue A 2 g 2
  /\ strictlyGreatest [(A, presentValue A 2 g 2); (B, presentValue B 2 g 2)]
     = Some A
  /\ outcome (compareRefiOptions g [A; B]) = Ok (Some B)
  /\ A <> B.
Proof.
  intros A B g.
  assert (Hcash : py_max Rgtb (map payment [A; B]) = Ok 2).
  { cbn [py_max map fold_left payment A B]. rewrite Rgtb_true by lra. reflexivity. }
  assert (Hhor : py_max Z.gtb (map term [A; B]) = Ok 2%Z) by reflexivity.
  assert (Hrates : ~ ratesTooShort g 2) by (cbn; tauto).
  assert (He : 0 < exp (- INFLATION * 2 / 12)) by apply exp_pos.
  assert (HA : presentValue A 2 g 2 = 2 * exp (- INFLATION * 2 / 12)).
  { unfold presentValue, discounted. f_equal. run_lists. lra. }
  assert (HB : presentValue B 2 g 2 = 1 * exp (- INFLATION * 2 / 12)).
  { unfold presentValue, discounted. f_equal. run_lists. lra. }
  destruct (compareRefiOptions_runs g [A; B] 2 2 Hcash Hhor Hrates)
    as [Hout Hcalls].
  split; [exact Hcalls |].
  split; [rewrite simulate_runs; [reflexivity | exact Hrates | cbn; lra] |].
  split; [rewrite simulate_runs; [reflexivity | exact Hrates | cbn; lra] |].
  split; [rewrite HA, HB; lra |].
  split; [| split].
  - unfold strictlyGreatest. cbn [fold_left fst snd].
    rewrite (Rgtb_true (presentValue A 2 g 2) 0) by (rewrite HA; lra).
    cbn [fst snd].
    rewrite (Rgtb_false (presentValue B 2 g 2)) by (rewrite HA, HB; lra).
    reflexivity.
  - rewrite Hout. unfold lastAboveZero. cbn [map fold_left fst snd].
    rewrite (Rgtb_true (presentValue A 2 g 2) 0) by (rewrite HA; lra).
    rewrite (Rgtb_true (presentValue B 2 g 2) 0) by (rewrite HB; lra).
    reflexivity.
  - intros Heq. apply (f_equal term) in Heq. discriminate.
Qed.

(** ** Further properties of the amortization formulas *)

Lemma exp_eq_1 (x : R) : exp x = 1 <-> x = 0.
Proof.
  split; intros H.
  - apply exp_inv. now rewrite exp_0.
  - subst x. apply exp_0.
Qed.

(** What [calcMonthlyPayment] does at a zero and at a non-zero product of
    rate and duration. *)
Lemma calcMonthlyPayment_cases (P r T fees : R) :
  (r = 0 \/ T = 0 -> calcMonthlyPayment P r T fees = Raise ZeroDivisionError)
  /\ (~ (r = 0 \/ T = 0) ->
      calcMonthlyPayment P r T fees
      = Ok ((r / 12) * P * exp (r * T) / (exp (r * T) - 1) + fees)).
Proof.
  split.
  - intros Hz. unfold calcMonthlyPayment. cbv zeta.
    assert (HrT : r * T = 0) by (destruct Hz as [-> | ->]; ring).
    rewrite HrT, exp_0, Rminus_diag, py_div_zero. reflexivity.
  - intros Hnz. unfold calcMonthlyPayment. cbv zeta.
    rewrite py_div_ok; [reflexivity |].
    intros Hden. apply Hnz.
    assert (HrT : r * T = 0) by (apply exp_eq_1; lra).
    apply Rmult_integral in HrT. exact HrT.
Qed.

(** X1.  [calcMonthlyPayment] raises exactly when the rate or the duration is
    zero (the denominator [e^(rT) - 1] vanishes), with a division by zero;
    for every other input, negative ones included, it returns the closed
    form plus the fees. *)
Theorem calcMonthlyPayment_raises_iff (P r T fees : R) :
  ((exists e, calcMonthlyPayment P r T fees = Raise e) <-> r = 0 \/ T = 0)
  /\ (r = 0 \/ T = 0 -> calcMonthlyPayment P r T fees = Raise ZeroDivisionError)
  /\ (~ (r = 0 \/ T = 0) ->
      calcMonthlyPayment P r T fees
      = Ok ((r / 12) * P * exp (r * T) / (exp (r * T) - 1) + fees)).
Proof.
  destruct (calcMonthlyPayment_cases P r T fees) as [Hzero Hok].
  split; [split | split; assumption].
  - intros [e He].
    destruct (Req_dec_T r 0) as [Hr | Hr]; [now left |].
    destruct (Req_dec_T T 0) as [HT | HT]; [now right |].
    rewrite Hok in He by tauto. discriminate.
  - intros Hz. eexists. now apply Hzero.
Qed.

(** X2.  For a positive principal, rate and duration, the payment net of fees
    is strictly above the monthly interest [r P / 12] on the principal: it
    is a payment for which [calcNumPayments] is defined. *)
Theorem calcMonthlyPayment_above_interest (P r T fees : R) :
  0 < P -> 0 < r -> 0 < T ->
  exists m, calcMonthlyPayment P r T fees = Ok m /\ r * P / 12 < m - fees.
Proof.
  intros HP Hr HT.
  assert (HE : 1 < exp (r * T)) by (apply exp_gt_1; nra).
  eexists. split; [now apply calcMonthlyPayment_ok |].
  destruct (payoff_ratio P r (exp (r * T)) HP Hr HE) as [Hden _].
  cbv zeta in Hden.
  assert (Hpos : 0 < r * P / (exp (r * T) - 1))
    by (apply Rdiv_lt_0_compat; nra).
  lra.
Qed.

Lemma calcMonthlyPayment_above_interest_witness :
  exists m, calcMonthlyPayment 300000 0.04 30 250 = Ok m
            /\ 0.04 * 300000 / 12 < m - 250.
Proof.
  apply (calcMonthlyPayment_above_interest 300000 0.04 30 250); lra.
Defined.

(** X3.  For a positive principal and rate, a longer duration gives a
    strictly smaller payment. *)
Theorem calcMonthlyPayment_decreasing_in_years (P r T1 T2 fees : R) :
  0 < P -> 0 < r -> 0 < T1 -> T1 < T2 ->
  exists m1 m2,
    calcMonthlyPayment P r T1 fees = Ok m1
    /\ calcMonthlyPayment P r T2 fees = Ok m2
    /\ m2 < m1.
Proof.
  intros HP Hr HT1 HT.
  assert (HE1 : 1 < exp (r * T1)) by (apply exp_gt_1; nra).
  assert (HE : exp (r * T1) < exp (r * T2)) by (apply exp_increasing; nra).
  do 2 eexists.
  split; [apply calcMonthlyPayment_ok; lra |].
  split; [apply calcMonthlyPayment_ok; lra |].
  set (E1 := exp (r * T1)) in *. set (E2 := exp (r * T2)) in *.
  assert (Hdiff : r / 12 * P * E1 / (E1 - 1) - r / 12 * P * E2 / (E2 - 1)
                  = (r * P / 12) * ((E2 - E1) / ((E1 - 1) * (E2 - 1))))
    by (field; lra).
  assert (Hfrac : 0 < (E2 - E1) / ((E1 - 1) * (E2 - 1))).
  { apply Rdiv_lt_0_compat; [lra |]. apply Rmult_lt_0_compat; lra. }
  assert (HrP : 0 < r * P / 12) by nra.
  assert (Hprod : 0 < (r * P / 12) * ((E2 - E1) / ((E1 - 1) * (E2 - 1))))
    by now apply Rmult_lt_0_compat.
  lra.
Qed.

Lemma calcMonthlyPayment_decreasing_in_years_witness :
  exists m1 m2,
    calcMonthlyPayment 300000 0.04 15 0 = Ok m1
    /\ calcMonthlyPayment 300000 0.04 30 0 = Ok m2
    /\ m2 < m1.
Proof.
  apply (calcMonthlyPayment_decreasing_in_years 300000 0.04 15 30 0); lra.
Defined.

(** X4.  The payment returned retires the loan: with it (net of fees) the
    amount owed of the model in the function's comment starts at the
    principal and is zero after the given number of years. *)
Theorem calcMonthlyPayment_retires_loan (P r T fees : R) :
  r <> 0 -> T <> 0 ->
  exists m,
    calcMonthlyPayment P r T fees = Ok m
    /\ amountOwed P r (m - fees) 0 = P
    /\ amountOwed P r (m - fees) T = 0.
Proof.
  intros Hr HT.
  destruct (calcMonthlyPayment_cases P r T fees) as [_ Hok].
  eexists. split; [apply Hok; tauto |].
  assert (HE : exp (r * T) - 1 <> 0).
  { intros Hden. assert (HrT : r * T = 0) by (apply exp_eq_1; lra).
    apply Rmult_integral in HrT. tauto. }
  unfold amountOwed. rewrite Rmult_0_r, exp_0.
  split; field; tauto.
Qed.

Lemma calcMonthlyPayment_retires_loan_witness :
  exists m,
    calcMonthlyPayment 300000 0.04 30 250 = Ok m
    /\ amountOwed 300000 0.04 (m - 250) 0 = 300000
    /\ amountOwed 300000 0.04 (m - 250) 30 = 0.
Proof.
  apply (calcMonthlyPayment_retires_loan 300000 0.04 30 250); lra.
Defined.

(** X5.  The round trip holds with fees: when the same fees are given to both
    functions, the number of payments for the payment of a [T]-year loan is
    [T * 12]. *)
Theorem calcNumPayments_roundtrip_with_fees (P r T fees : R) :
  0 < P -> 0 < r -> 0 < T ->
  exists m,
    calcMonthlyPayment P r T fees = Ok m
    /\ calcNumPayments P r m fees = Ok (T * 12).
Proof.
  intros HP Hr HT.
  assert (HE : 1 < exp (r * T)) by (apply exp_gt_1; nra).
  eexists. split; [now apply calcMonthlyPayment_ok |].
  destruct (payoff_ratio P r (exp (r * T)) HP Hr HE) as [Hden Hratio].
  cbv zeta in Hden, Hratio.
  set (m := r / 12 * P * exp (r * T) / (exp (r * T) - 1)) in *.
  assert (Hpos : 0 < r * P / (exp (r * T) - 1))
    by (apply Rdiv_lt_0_compat; nra).
  destruct (calcNumPayments_cases P r (m + fees) fees HP Hr) as [_ [_ Hok]].
  cbv zeta in Hok.
  replace (m + fees - fees) with m in Hok by ring.
  rewrite Hok by (right; lra).
  rewrite Hratio, ln_exp. f_equal. field. lra.
Qed.

Lemma calcNumPayments_roundtrip_with_fees_witness :
  exists m,
    calcMonthlyPayment 300000 0.04 30 250 = Ok m
    /\ calcNumPayments 300000 0.04 m 250 = Ok (30 * 12).
Proof.
  apply (calcNumPayments_roundtrip_with_fees 300000 0.04 30 250); lra.
Defined.

(** X6.  The round trip in the other direction: for a payment whose net
    amount exceeds the monthly interest, the number of payments is defined
    and positive, and the payment of a loan of that duration is the payment
    started from. *)
Theorem calcMonthlyPayment_calcNumPayments_roundtrip (P r m fees : R) :
  0 < P -> 0 < r -> r * P < 12 * (m - fees) ->
  exists n,
    calcNumPayments P r m fees = Ok n
    /\ 0 < n
    /\ calcMonthlyPayment P r (n / 12) fees = Ok m.
Proof.
  intros HP Hr Hm.
  destruct (calcNumPayments_cases P r m fees HP Hr) as [_ [_ Hok]].
  cbv zeta in Hok.
  set (m' := m - fees) in *.
  set (q := 12 * m' / (12 * m' - r * P)) in *.
  assert (HrP : 0 < r * P) by nra.
  assert (Hq1 : q - 1 = r * P / (12 * m' - r * P)) by (subst q; field; lra).
  assert (Hq : 1 < q).
  { assert (0 < r * P / (12 * m' - r * P)) by (apply Rdiv_lt_0_compat; lra).
    lra. }
  assert (Hln : 0 < ln q) by (rewrite <- ln_1; apply ln_increasing; lra).
  eexists. split; [apply Hok; now right |].
  assert (Hinv : 0 < 1 / r) by (apply Rdiv_lt_0_compat; lra).
  split; [apply Rmult_lt_0_compat; [nra | exact Hln] |].
  assert (Hexp : exp (r * (12 * (1 / r) * ln q / 12)) = q).
  { replace (r * (12 * (1 / r) * ln q / 12)) with (ln q) by (field; lra).
    apply exp_ln. lra. }
  unfold calcMonthlyPayment. cbv zeta. rewrite Hexp.
  rewrite py_div_ok by lra. cbn. f_equal.
  rewrite Hq1. subst q m'. field. repeat split; lra.
Qed.

Lemma calcMonthlyPayment_calcNumPayments_roundtrip_witness :
  exists n,
    calcNumPayments 300000 0.04 1500 0 = Ok n
    /\ 0 < n
    /\ calcMonthlyPayment 300000 0.04 (n / 12) 0 = Ok 1500.
Proof.
  apply (calcMonthlyPayment_calcNumPayments_roundtrip 300000 0.04 1500 0); lra.
Defined.

(** X7.  Among payments that exceed the monthly interest, a larger payment
    needs strictly fewer payments. *)
Theorem calcNumPayments_decreasing_in_payment (P r m1 m2 fees : R) :
  0 < P -> 0 < r -> r * P < 12 * (m1 - fees) -> m1 < m2 ->
  exists n1 n2,
    calcNumPayments P r m1 fees = Ok n1
    /\ calcNumPayments P r m2 fees = Ok n2
    /\ n2 < n1.
Proof.
  intros HP Hr Hm1 Hm.
  destruct (calcNumPayments_cases P r m1 fees HP Hr) as [_ [_ Hok1]].
  destruct (calcNumPayments_cases P r m2 fees HP Hr) as [_ [_ Hok2]].
  cbv zeta in Hok1, Hok2.
  do 2 eexists.
  split; [apply Hok1; right; lra |]. split; [apply Hok2; right; lra |].
  set (a := 12 * (m1 - fees)) in *. set (b := 12 * (m2 - fees)) in *.
  assert (Hab : a < b) by (subst a b; lra).
  assert (HrP : 0 < r * P) by nra.
  assert (Hq : b / (b - r * P) < a / (a - r * P)).
  { assert (Hdiff : a / (a - r * P) - b / (b - r * P)
                    = r * P * (b - a) / ((a - r * P) * (b - r * P)))
      by (field; lra).
    assert (0 < r * P * (b - a) / ((a - r * P) * (b - r * P))).
    { apply Rdiv_lt_0_compat; [| apply Rmult_lt_0_compat; lra].
      apply Rmult_lt_0_compat; lra. }
    lra. }
  assert (Hqb : 0 < b / (b - r * P)) by (apply Rdiv_lt_0_compat; lra).
  assert (Hln : ln (b / (b - r * P)) < ln (a / (a - r * P)))
    by (apply ln_increasing; assumption).
  assert (Hk : 0 < 12 * (1 / r)).
  { assert (0 < 1 / r) by (apply Rdiv_lt_0_compat; lra). lra. }
  now apply Rmult_lt_compat_l.
Qed.

Lemma calcNumPayments_decreasing_in_payment_witness :
  exists n1 n2,
    calcNumPayments 300000 0.04 1500 0 = Ok n1
    /\ calcNumPayments 300000 0.04 2000 0 = Ok n2
    /\ n2 < n1.
Proof.
  apply (calcNumPayments_decreasing_in_payment 300000 0.04 1500 2000 0); lra.
Defined.

(** ** Further properties of the compounding and of the simulator *)

Lemma reduce_growthFactor (rates : list R) (x : R) :
  reduce applyMonthlyInterest rates x = x * growthFactor rates.
Proof.
  unfold reduce. revert x. induction rates as [| r rates IH]; intros x.
  - cbn. ring.
  - cbn [fold_left growthFactor fold_right]. rewrite IH.
    fold (growthFactor rates). unfold applyMonthlyInterest. ring.
Qed.

Lemma growthFactor_Permutation (l l' : list R) :
  Permutation l l' -> growthFactor l = growthFactor l'.
Proof.
  unfold growthFactor. induction 1; cbn.
  - reflexivity.
  - now rewrite IHPermutation.
  - ring.
  - congruence.
Qed.

Lemma growthFactor_nonneg (l : list R) :
  Forall (fun r => -12 <= r) l -> 0 <= growthFactor l.
Proof.
  unfold growthFactor. induction 1 as [| r l Hr _ IH]; cbn; [lra |].
  apply Rmult_le_pos; [lra | exact IH].
Qed.

(** X8.  Compounding through a list of annual rates multiplies the principal
    by the product of the monthly factors; the order of the rates does not
    matter, and [n] months at one rate [r] multiply by [(1 + r/12)^n]. *)
Theorem applyMonthlyInterest_compounds :
  (forall rates x,
      reduce applyMonthlyInterest rates x = x * growthFactor rates)
  /\ (forall rates rates' x,
        Permutation rates rates' ->
        reduce applyMonthlyInterest rates x = reduce applyMonthlyInterest rates' x)
  /\ (forall r n x,
        reduce applyMonthlyInterest (repeat r n) x = x * (1 + r / 12) ^ n).
Proof.
  split; [exact reduce_growthFactor | split].
  - intros rates rates' x Hperm. rewrite !reduce_growthFactor.
    now rewrite (growthFactor_Permutation _ _ Hperm).
  - intros r n x. rewrite reduce_repeat. apply compound_pow.
Qed.

Lemma applyMonthlyInterest_compounds_witness :
  reduce applyMonthlyInterest [0.06; 0.12] 100
  = reduce applyMonthlyInterest [0.12; 0.06] 100.
Proof.
  destruct applyMonthlyInterest_compounds as [_ [Hperm _]].
  apply Hperm. apply perm_swap.
Defined.

Lemma terminalWealth_ext (o1 o2 : RefinanceOption) (c1 c2 : R) (rates : list R)
    (horizon : Z) :
  (forall month, (0 <= month < horizon)%Z -> netCash o1 c1 month = netCash o2 c2 month) ->
  terminalWealth o1 c1 rates horizon = terminalWealth o2 c2 rates horizon.
Proof.
  intros Hnet. rewrite !terminalWealth_sum. apply Rsum_ext.
  intros month Hm. apply range_spec in Hm. now rewrite Hnet.
Qed.

Lemma resolvedRates_firstn_length (g : GrowthRate) (horizon : Z) :
  ~ ratesTooShort g horizon ->
  length (firstn (Z.to_nat horizon) (resolvedRates g horizon)) = Z.to_nat horizon.
Proof.
  intros Hrates. rewrite length_firstn. apply Nat.min_l.
  destruct g as [r | rates]; cbn in *.
  - unfold list_times. now rewrite repeat_length.
  - lia.
Qed.

(** The running account and the deposits followed one by one agree. *)
Lemma balanceFrom_sum (deposit : Z -> R) (rates : list R) (month : Z) (balance : R) :
  balanceFrom deposit rates month balance
  = reduce applyMonthlyInterest rates balance
    + Rsum (map (fun j => reduce applyMonthlyInterest (skipn j rates)
                                 (deposit (month + Z.of_nat j)%Z))
                (seq 0 (length rates))).
Proof.
  pose proof reduce_plus as Hplus. unfold reduce, Rsum in *.
  revert month balance. induction rates as [| a l IH]; intros month balance.
  - cbn. lra.
  - assert (Hsplit : applyMonthlyInterest (balance + deposit month) a
                     = applyMonthlyInterest balance a
                       + applyMonthlyInterest (deposit month) a)
      by (unfold applyMonthlyInterest; ring).
    cbn [balanceFrom fold_left length seq map fold_right skipn].
    rewrite IH, Hsplit, Hplus, <- seq_shift, map_map.
    cbn [skipn]. rewrite Z.add_0_r.
    assert (Hidx : map (fun j => fold_left applyMonthlyInterest (skipn j l)
                                   (deposit (month + 1 + Z.of_nat j)%Z))
                       (seq 0 (length l))
                   = map (fun j => fold_left applyMonthlyInterest (skipn j l)
                                     (deposit (month + Z.of_nat (S j))%Z))
                         (seq 0 (length l))).
    { apply map_ext. intros j. do 2 f_equal. lia. }
    rewrite Hidx. lra.
Qed.

(** X9.  Past its guards, [simulate] returns the discounted final balance of
    an account run month by month: each month's net cash is deposited and
    the balance then earns that month's interest. *)
Theorem simulate_is_running_balance (o : RefinanceOption) (monthlyCash : R)
    (g : GrowthRate) (horizon : Z) :
  ~ ratesTooShort g horizon -> ~ monthlyCash < payment o ->
  outcome (simulate o monthlyCash g horizon)
  = Ok (discounted
          (balanceFrom (netCash o monthlyCash)
             (firstn (Z.to_nat horizon) (resolvedRates g horizon)) 0 0)
          horizon).
Proof.
  intros Hrates Hcash.
  rewrite simulate_runs by assumption. cbn [outcome].
  unfold presentValue. do 2 f_equal.
  rewrite terminalWealth_sum, balanceFrom_sum, reduce_zero, Rplus_0_l.
  rewrite (resolvedRates_firstn_length g horizon Hrates).
  unfold range. rewrite map_map.
  apply Rsum_ext. intros j Hj. rewrite Nat2Z.id, Z.add_0_l. reflexivity.
Qed.

Lemma simulate_is_running_balance_witness :
  outcome (simulate (mkRefinanceOption 40 1 5) 100 (RateList [0.06; 0.12; 0.24]) 2)
  = Ok (discounted
          (balanceFrom (netCash (mkRefinanceOption 40 1 5) 100) [0.06; 0.12] 0 0)
          2).
Proof.
  apply (simulate_is_running_balance
           (mkRefinanceOption 40 1 5) 100 (RateList [0.06; 0.12; 0.24]) 2);
    cbn; solve [lia | lra].
Defined.

(** X10.  The rates of a list beyond the horizon are never read: a rate list
    and its first [horizon] items give the same result, an exception
    included. *)
Theorem simulate_ignores_rates_beyond_horizon (o : RefinanceOption)
    (monthlyCash : R) (rates : list R) (horizon : Z) :
  outcome (simulate o monthlyCash (RateList rates) horizon)
  = outcome (simulate o monthlyCash
                      (RateList (firstn (Z.to_nat horizon) rates)) horizon).
Proof.
  destruct (ratesTooShort_dec (RateList rates) horizon) as [Hshort | Hlong].
  - cbn in Hshort. rewrite firstn_all2 by lia. reflexivity.
  - assert (Hlong' : ~ ratesTooShort (RateList (firstn (Z.to_nat horizon) rates))
                       horizon).
    { cbn in *. rewrite length_firstn. lia. }
    destruct (Rlt_dec monthlyCash (payment o)) as [Hlow | Hhigh].
    + rewrite !simulate_not_enough_cash by assumption. reflexivity.
    + rewrite !simulate_runs by assumption. cbn [outcome]. f_equal.
      unfold presentValue. f_equal. rewrite !terminalWealth_sum.
      cbn [resolvedRates]. rewrite firstn_firstn, Nat.min_id. reflexivity.
Qed.

(** X11.  The term matters only through the months of the horizon: an option
    and the same option with its term brought into [0 .. horizon] give the
    same result, an exception included. *)
Theorem simulate_term_clamped (o : RefinanceOption) (monthlyCash : R)
    (g : GrowthRate) (horizon : Z) :
  outcome (simulate o monthlyCash g horizon)
  = outcome (simulate (mkRefinanceOption (payment o)
                         (Z.max 0 (Z.min (term o) horizon)) (cost o))
                      monthlyCash g horizon).
Proof.
  set (o' := mkRefinanceOption _ _ _).
  destruct (ratesTooShort_dec g horizon) as [Hshort | Hlong].
  - rewrite !simulate_rates_too_short by assumption. reflexivity.
  - destruct (Rlt_dec monthlyCash (payment o)) as [Hlow | Hhigh].
    + rewrite !simulate_not_enough_cash by assumption. reflexivity.
    + rewrite !simulate_runs by assumption. cbn [outcome]. f_equal.
      unfold presentValue. f_equal. apply terminalWealth_ext.
      intros month Hm. unfold netCash. subst o'. cbn [term payment cost].
      destruct (Z.ltb_spec month (term o));
        destruct (Z.ltb_spec month (Z.max 0 (Z.min (term o) horizon)));
        try lia; reflexivity.
Qed.

Lemma discounted_minus (a b : R) (horizon : Z) :
  discounted (a - b) horizon = discounted a horizon - discounted b horizon.
Proof. unfold discounted. ring. Qed.

(** The terminal wealth splits into that of the option without cost and the
    cost carried through the rates of the horizon. *)
Lemma terminalWealth_cost (o : RefinanceOption) (monthlyCash : R)
    (rates : list R) (horizon : Z) :
  (0 < horizon)%Z ->
  terminalWealth o monthlyCash rates horizon
  = terminalWealth (mkRefinanceOption (payment o) (term o) 0)
                   monthlyCash rates horizon
    - cost o * growthFactor (firstn (Z.to_nat horizon) rates).
Proof.
  intros Hpos.
  set (o0 := mkRefinanceOption (payment o) (term o) 0).
  rewrite !terminalWealth_sum.
  set (L := firstn (Z.to_nat horizon) rates).
  assert (Hh : exists n, horizon = Z.of_nat (S n))
    by (exists (Z.to_nat (horizon - 1)); lia).
  destruct Hh as [n Hn]. rewrite Hn, range_succ.
  cbn [map Rsum fold_right]. change (Z.to_nat 0) with 0%nat. cbn [skipn].
  rewrite !reduce_growthFactor.
  assert (H0 : netCash o monthlyCash 0 = netCash o0 monthlyCash 0 - cost o)
    by (unfold netCash; subst o0; cbn [term payment cost Z.eqb]; ring).
  assert (Hrest : Rsum (map (fun month =>
                               reduce applyMonthlyInterest
                                      (skipn (Z.to_nat month) L)
                                      (netCash o monthlyCash month))
                            (map Z.of_nat (seq 1 n)))
                  = Rsum (map (fun month =>
                                 reduce applyMonthlyInterest
                                        (skipn (Z.to_nat month) L)
                                        (netCash o0 monthlyCash month))
                              (map Z.of_nat (seq 1 n)))).
  { apply Rsum_ext. intros month Hm. apply in_map_iff in Hm.
    destruct Hm as [j [<- Hj]]. apply in_seq in Hj. f_equal.
    unfold netCash. subst o0. cbn [term payment cost].
    destruct (Z.eqb_spec (Z.of_nat j) 0); [lia | reflexivity]. }
  unfold Rsum in *. rewrite Hrest, H0. ring.
Qed.

(** X12.  The cost is charged once, in month 0, and is carried through every
    month of the horizon: for a positive horizon the result is the result of
    the same option without cost, minus the discounted cost compounded
    through the rates of the horizon. *)
Theorem simulate_cost_charged_once (o : RefinanceOption) (monthlyCash : R)
    (g : GrowthRate) (horizon : Z) :
  (0 < horizon)%Z -> ~ ratesTooShort g horizon -> ~ monthlyCash < payment o ->
  exists v0,
    outcome (simulate (mkRefinanceOption (payment o) (term o) 0)
                      monthlyCash g horizon) = Ok v0
    /\ outcome (simulate o monthlyCash g horizon)
       = Ok (v0 - discounted
                    (cost o * growthFactor
                                (firstn (Z.to_nat horizon) (resolvedRates g horizon)))
                    horizon).
Proof.
  intros Hpos Hrates Hcash.
  eexists. split; [rewrite simulate_runs by assumption; reflexivity |].
  rewrite simulate_runs by assumption. cbn [outcome]. f_equal.
  unfold presentValue. rewrite <- discounted_minus. f_equal.
  now apply terminalWealth_cost.
Qed.

Lemma simulate_cost_charged_once_witness :
  exists v0,
    outcome (simulate (mkRefinanceOption 40 1 0) 100 (Scalar 0.06) 2) = Ok v0
    /\ outcome (simulate (mkRefinanceOption 40 1 5) 100 (Scalar 0.06) 2)
       = Ok (v0 - discounted (5 * growthFactor [0.06; 0.06]) 2).
Proof.
  apply (simulate_cost_charged_once (mkRefinanceOption 40 1 5) 100 (Scalar 0.06) 2);
    cbn; solve [lia | lra | tauto].
Defined.

Lemma skipn_repeat_n {A : Type} (x : A) (n j : nat) :
  skipn j (repeat x n) = repeat x (n - j).
Proof.
  revert j. induction n as [| n IH]; intros [| j]; cbn; try reflexivity.
  apply IH.
Qed.

(** With one rate for every month, each month's net cash is multiplied by
    the monthly factor once per month left. *)
Lemma terminalWealth_scalar (o : RefinanceOption) (monthlyCash r : R)
    (horizon : Z) :
  terminalWealth o monthlyCash (list_times r horizon) horizon
  = Rsum (map (fun month =>
                 netCash o monthlyCash month
                 * (1 + r / 12) ^ Z.to_nat (horizon - month))
              (range horizon)).
Proof.
  rewrite terminalWealth_sum.
  apply Rsum_ext. intros month Hm. apply range_spec in Hm.
  unfold list_times.
  rewrite firstn_all2 by (rewrite repeat_length; lia).
  rewrite skipn_repeat_n, reduce_repeat, compound_pow.
  do 2 f_equal. lia.
Qed.

(** X13.  With a single growth rate [r], past the guards, the result is the
    discounted sum over the months of that month's net cash times
    [(1 + r/12)] to the number of months left, the month itself included. *)
Theorem simulate_scalar_closed_form (o : RefinanceOption) (monthlyCash r : R)
    (horizon : Z) :
  ~ monthlyCash < payment o ->
  outcome (simulate o monthlyCash (Scalar r) horizon)
  = Ok (discounted
          (Rsum (map (fun month =>
                        netCash o monthlyCash month
                        * (1 + r / 12) ^ Z.to_nat (horizon - month))
                     (range horizon)))
          horizon).
Proof.
  intros Hcash.
  rewrite simulate_runs; [| cbn; tauto | assumption]. cbn [outcome].
  unfold presentValue. do 2 f_equal. apply terminalWealth_scalar.
Qed.

Lemma simulate_scalar_closed_form_witness :
  outcome (simulate (mkRefinanceOption 40 1 5) 100 (Scalar 0.06) 2)
  = Ok (discounted
          (Rsum (map (fun month =>
                        netCash (mkRefinanceOption 40 1 5) 100 month
                        * (1 + 0.06 / 12) ^ Z.to_nat (2 - month))
                     (range 2)))
          2).
Proof.
  apply (simulate_scalar_closed_form (mkRefinanceOption 40 1 5) 100 0.06 2).
  cbn. lra.
Defined.

Lemma Rsum_le {A : Type} (f f' : A -> R) (l : list A) :
  (forall x, In x l -> f x <= f' x) -> Rsum (map f l) <= Rsum (map f' l).
Proof.
  unfold Rsum. induction l as [| x xs IH]; intros Hle; cbn; [lra |].
  assert (f x <= f' x) by (apply Hle; now left).
  assert (fold_right Rplus 0 (map f xs) <= fold_right Rplus 0 (map f' xs))
    by (apply IH; intros y Hy; apply Hle; now right).
  lra.
Qed.

Lemma Forall_skipn_firstn {A : Type} (P : A -> Prop) (l : list A) (j n : nat) :
  Forall P l -> Forall P (skipn j (firstn n l)).
Proof.
  intros Hall.
  rewrite <- (firstn_skipn n l) in Hall. apply Forall_app in Hall.
  destruct Hall as [Hfirst _].
  rewrite <- (firstn_skipn j (firstn n l)) in Hfirst.
  apply Forall_app in Hfirst. tauto.
Qed.

(** X14.  More monthly cash never gives less: when no rate is below -12 (no
    monthly factor is negative), a larger budget gives a result at least as
    large. *)
Theorem simulate_monotone_in_budget (o : RefinanceOption) (cash1 cash2 : R)
    (g : GrowthRate) (horizon : Z) :
  Forall (fun r => -12 <= r) (resolvedRates g horizon) ->
  ~ ratesTooShort g horizon -> ~ cash1 < payment o -> cash1 <= cash2 ->
  exists v1 v2,
    outcome (simulate o cash1 g horizon) = Ok v1
    /\ outcome (simulate o cash2 g horizon) = Ok v2
    /\ v1 <= v2.
Proof.
  intros Hfactors Hrates Hcash Hle.
  assert (Hcash2 : ~ cash2 < payment o) by lra.
  do 2 eexists.
  split; [rewrite simulate_runs by assumption; reflexivity |].
  split; [rewrite simulate_runs by assumption; reflexivity |].
  unfold presentValue, discounted.
  apply Rmult_le_compat_r; [left; apply exp_pos |].
  rewrite !terminalWealth_sum. apply Rsum_le.
  intros month Hm. rewrite !reduce_growthFactor.
  apply Rmult_le_compat_r.
  - apply growthFactor_nonneg. now apply Forall_skipn_firstn.
  - unfold netCash. lra.
Qed.

Lemma simulate_monotone_in_budget_witness :
  exists v1 v2,
    outcome (simulate (mkRefinanceOption 40 1 5) 100 (Scalar 0.06) 2) = Ok v1
    /\ outcome (simulate (mkRefinanceOption 40 1 5) 150 (Scalar 0.06) 2) = Ok v2
    /\ v1 <= v2.
Proof.
  apply (simulate_monotone_in_budget (mkRefinanceOption 40 1 5) 100 150
           (Scalar 0.06) 2).
  - repeat constructor; lra.
  - cbn. tauto.
  - cbn. lra.
  - lra.
Defined.

(** ** Further properties of the comparator *)

Lemma py_max_In {A : Type} (gt : A -> A -> bool) (l : list A) (m : A) :
  py_max gt l = Ok m -> In m l.
Proof.
  destruct l as [| x0 xs]; [discriminate |]. cbn [py_max]. intros [= <-].
  assert (Hfold : forall l a,
             fold_left (fun m item => if gt item m then item else m) l a = a
             \/ In (fold_left (fun m item => if gt item m then item else m) l a) l).
  { induction l as [| y l IH]; intros a; cbn [fold_left]; [now left |].
    destruct (IH (if gt y a then y else a)) as [-> | Hin].
    - destruct (gt y a); [right; now left | now left].
    - right. now right. }
  destruct (Hfold xs x0) as [-> | Hin]; [now left | now right].
Qed.

Lemma py_max_Z_upper (l : list Z) (m : Z) :
  py_max Z.gtb l = Ok m -> forall x, In x l -> (x <= m)%Z.
Proof.
  destruct l as [| x0 xs]; [discriminate |]. cbn [py_max]. intros [= <-].
  assert (Hfold : forall l a,
             (a <= fold_left (fun m item => if (item >? m)%Z then item else m) l a)%Z
             /\ forall x, In x l ->
                  (x <= fold_left (fun m item => if (item >? m)%Z then item else m) l a)%Z).
  { induction l as [| y l IH]; intros a; cbn [fold_left].
    - split; [lia | intros ? []].
    - destruct (IH (if (y >? a)%Z then y else a)) as [H1 H2].
      assert (Ha : (a <= (if (y >? a)%Z then y else a)
                    /\ y <= (if (y >? a)%Z then y else a))%Z)
        by (destruct (Z.gtb_spec y a); lia).
      split; [lia |]. intros x [<- | Hx]; [lia | now apply H2]. }
  destruct (Hfold xs x0) as [H1 H2].
  intros x [<- | Hx]; [exact H1 | now apply H2].
Qed.

Lemma months_app (t u : list event) : months (t ++ u) = months t ++ months u.
Proof. unfold months. apply flat_map_app. Qed.

Lemma lastAboveZero_Some (pvs : list (RefinanceOption * R)) (o : RefinanceOption) :
  lastAboveZero pvs = Some o -> exists v, In (o, v) pvs /\ v > 0.
Proof.
  unfold lastAboveZero.
  assert (Hgen : forall pvs acc,
             fold_left (fun maxOption ov =>
                          if Rgtb (snd ov) 0 then Some (fst ov) else maxOption)
                       pvs acc = Some o ->
             acc = Some o \/ exists v, In (o, v) pvs /\ v > 0).
  { induction pvs0 as [| [o' v'] pvs0 IH]; intros acc Hres; cbn [fold_left] in Hres.
    - now left.
    - apply IH in Hres. destruct Hres as [Hacc | [v [Hin Hv]]].
      + cbn [fst snd] in Hacc. unfold Rgtb in Hacc.
        destruct (Rgt_dec v' 0) as [Hpos | Hneg].
        * injection Hacc as ->. right. exists v'. split; [now left | exact Hpos].
        * now left.
      + right. exists v. split; [now right | exact Hv]. }
  intros Hres. destruct (Hgen pvs None Hres) as [Hnone | Hex];
    [discriminate | exact Hex].
Qed.

Lemma lastAboveZero_None_inv (pvs : list (RefinanceOption * R)) :
  lastAboveZero pvs = None -> forall ov, In ov pvs -> ~ snd ov > 0.
Proof.
  unfold lastAboveZero.
  assert (Hgen : forall (pvs : list (RefinanceOption * R)) acc,
             fold_left (fun maxOption ov =>
                          if Rgtb (snd ov) 0 then Some (fst ov) else maxOption)
                       pvs acc = None ->
             acc = None /\ forall ov, In ov pvs -> ~ snd ov > 0).
  { induction pvs0 as [| ov0 pvs0 IH]; intros acc Hres; cbn [fold_left] in Hres.
    - split; [exact Hres | intros ? []].
    - apply IH in Hres. destruct Hres as [Hacc Hrest].
      unfold Rgtb in Hacc. destruct (Rgt_dec (snd ov0) 0) as [Hpos | Hneg];
        [discriminate |].
      split; [exact Hacc |]. intros ov [<- | Hin]; [exact Hneg | now apply Hrest]. }
  intros Hres. now destruct (Hgen pvs None Hres).
Qed.

(** On a non-empty list with a rate list too short for the shared horizon,
    the first call of [simulate] raises and nothing else is run. *)
Lemma compareRefiOptions_rates_too_short (g : GrowthRate) (o : RefinanceOption)
    (opts : list RefinanceOption) (monthlyCash : R) (horizon : Z) :
  py_max Rgtb (map payment (o :: opts)) = Ok monthlyCash ->
  py_max Z.gtb (map term (o :: opts)) = Ok horizon ->
  ratesTooShort g horizon ->
  compareRefiOptions g (o :: opts)
  = Traced [SimulateCall o monthlyCash g horizon]
           (Raise (ValueError (RatesTooShort horizon))).
Proof.
  intros Hcash Hhor Hshort.
  rewrite (compareRefiOptions_loop g monthlyCash horizon _ Hcash Hhor).
  now apply compare_loop_raises.
Qed.

(** X15.  [compareRefiOptions] raises in two cases only: on an empty list of
    options, and when the growth rate is a list shorter than the greatest
    term, in which case the first call of [simulate] raises and no other
    option is simulated.  It never raises for a lack of monthly cash. *)
Theorem compareRefiOptions_raises_iff (g : GrowthRate)
    (opts : list RefinanceOption) :
  ((exists e, outcome (compareRefiOptions g opts) = Raise e)
   <-> opts = []
       \/ exists horizon,
            py_max Z.gtb (map term opts) = Ok horizon /\ ratesTooShort g horizon)
  /\ outcome (compareRefiOptions g opts) <> Raise (ValueError NotEnoughCash)
  /\ (forall horizon,
         py_max Z.gtb (map term opts) = Ok horizon -> ratesTooShort g horizon ->
         outcome (compareRefiOptions g opts)
         = Raise (ValueError (RatesTooShort horizon))
         /\ length (calls (trace (compareRefiOptions g opts))) = 1%nat).
Proof.
  destruct opts as [| o opts].
  - split; [| split].
    + split; [now left | intros _; eexists; reflexivity].
    + discriminate.
    + intros horizon Hhor. discriminate.
  - destruct (py_max_nonempty Rgtb (map payment (o :: opts))) as [cash Hcash];
      [discriminate |].
    destruct (py_max_nonempty Z.gtb (map term (o :: opts))) as [h Hhor];
      [discriminate |].
    destruct (ratesTooShort_dec g h) as [Hshort | Hlong].
    + pose proof (compareRefiOptions_rates_too_short g o opts cash h
                    Hcash Hhor Hshort) as Hraise.
      split; [| split].
      * split; [| intros _; rewrite Hraise; eexists; reflexivity].
        intros _. right. exists h. now split.
      * rewrite Hraise. discriminate.
      * intros h' Hh'. rewrite Hhor in Hh'. injection Hh' as <-.
        intros _. rewrite Hraise. split; reflexivity.
    + destruct (compareRefiOptions_runs g (o :: opts) cash h Hcash Hhor Hlong)
        as [Hout _].
      split; [| split].
      * split.
        -- intros [e He]. rewrite Hout in He. discriminate.
        -- intros [Hnil | [h' [Hh' Hshort]]]; [discriminate |].
           rewrite Hhor in Hh'. injection Hh' as <-. contradiction.
      * rewrite Hout. discriminate.
      * intros h' Hh' Hshort. rewrite Hhor in Hh'. injection Hh' as <-.
        contradiction.
Qed.

Lemma compareRefiOptions_raises_iff_witness :
  outcome (compareRefiOptions (RateList [0.05])
             [mkRefinanceOption 1 2 0; mkRefinanceOption 2 1 1])
  = Raise (ValueError (RatesTooShort 2))
  /\ length (calls (trace (compareRefiOptions (RateList [0.05])
                             [mkRefinanceOption 1 2 0; mkRefinanceOption 2 1 1])))
     = 1%nat.
Proof.
  destruct (compareRefiOptions_raises_iff (RateList [0.05])
              [mkRefinanceOption 1 2 0; mkRefinanceOption 2 1 1])
    as [_ [_ Hshort]].
  apply Hshort; [reflexivity | cbn; lia].
Defined.

(** X16.  When [compareRefiOptions] returns, an option it returns is one of
    the options given and its simulated present value, under the shared
    budget and horizon, is above zero; and it returns no option exactly when
    no option's present value is above zero. *)
Theorem compareRefiOptions_result_sound (g : GrowthRate)
    (opts : list RefinanceOption) (monthlyCash : R) (horizon : Z) :
  py_max Rgtb (map payment opts) = Ok monthlyCash ->
  py_max Z.gtb (map term opts) = Ok horizon ->
  ~ ratesTooShort g horizon ->
  (forall o,
      outcome (compareRefiOptions g opts) = Ok (Some o) ->
      In o opts
      /\ exists v, outcome (simulate o monthlyCash g horizon) = Ok v /\ v > 0)
  /\ (outcome (compareRefiOptions g opts) = Ok None
      <-> forall o, In o opts ->
            exists v, outcome (simulate o monthlyCash g horizon) = Ok v /\ ~ v > 0).
Proof.
  intros Hcash Hhor Hrates.
  destruct (compareRefiOptions_runs g opts monthlyCash horizon Hcash Hhor Hrates)
    as [Hout _].
  assert (Hsim : forall o, In o opts ->
                   outcome (simulate o monthlyCash g horizon)
                   = Ok (presentValue o monthlyCash g horizon)).
  { intros o Ho. rewrite simulate_runs; [reflexivity | exact Hrates |].
    apply Rle_not_lt. apply (py_max_R_upper _ _ Hcash). now apply in_map. }
  rewrite Hout. split; [| split].
  - intros o [= Hres]. apply lastAboveZero_Some in Hres.
    destruct Hres as [v [Hin Hv]]. apply in_map_iff in Hin.
    destruct Hin as [o' [[= -> <-] Ho]].
    split; [exact Ho |]. eexists. split; [now apply Hsim | exact Hv].
  - intros [= Hres] o Ho. eexists. split; [now apply Hsim |].
    apply (lastAboveZero_None_inv _ Hres (o, presentValue o monthlyCash g horizon)).
    apply in_map_iff. now exists o.
  - intros Hall. f_equal. apply lastAboveZero_none.
    intros ov Hov. apply in_map_iff in Hov. destruct Hov as [o [<- Ho]].
    destruct (Hall o Ho) as [v [Hv Hle]].
    rewrite (Hsim o Ho) in Hv. injection Hv as <-. exact Hle.
Qed.

Lemma compareRefiOptions_result_sound_witness :
  outcome (compareRefiOptions (Scalar 0) [mkRefinanceOption 1 2 5]) = Ok None.
Proof.
  destruct (compareRefiOptions_result_sound (Scalar 0) [mkRefinanceOption 1 2 5]
              1 2%Z eq_refl eq_refl) as [_ Hnone]; [cbn; tauto |].
  apply Hnone. intros o [<- | []].
  rewrite simulate_runs; [| cbn; tauto | cbn; lra].
  eexists. split; [reflexivity |].
  unfold presentValue, discounted.
  assert (Hw : terminalWealth (mkRefinanceOption 1 2 5) 1
                 (resolvedRates (Scalar 0) 2) 2 = - 5)
    by (run_lists; lra).
  rewrite Hw.
  assert (He : 0 < exp (- INFLATION * 2 / 12)) by apply exp_pos.
  lra.
Defined.

(** The whole trace of the loop over the options, when no call raises: for
    each option in turn, the call and then the months of the horizon. *)
Lemma compare_loop_trace (g : GrowthRate) (monthlyCash : R) (horizon : Z)
    (opts : list RefinanceOption) :
  ~ ratesTooShort g horizon ->
  (forall o, In o opts -> ~ monthlyCash < payment o) ->
  forall maxOption,
    trace (for_each opts
             (fun opt maxOption =>
                val <- simulate opt monthlyCash g horizon ;;
                if Rgtb val 0 then ret (Some opt) else ret maxOption)
             maxOption)
    = flat_map (fun o => SimulateCall o monthlyCash g horizon
                         :: map MonthStep (range horizon)) opts.
Proof.
  intros Hrates. induction opts as [| o opts IH]; intros Hcash maxOption.
  - reflexivity.
  - cbn [for_each flat_map].
    rewrite (simulate_runs o monthlyCash g horizon Hrates
               (Hcash o (or_introl eq_refl))).
    cbn [bind traced_monad outcome trace].
    destruct (Rgtb (presentValue o monthlyCash g horizon) 0);
      cbn [ret traced_monad outcome trace];
      rewrite app_nil_r, IH by (intros o' Ho'; apply Hcash; now right);
      reflexivity.
Qed.

(** X17.  On a non-empty list, when the rate list is long enough, the shared
    budget is the greatest payment and the shared horizon the greatest term,
    each attained by some option; [simulate] is called once per option, in
    input order, with that budget and horizon; and every call runs all the
    months of the horizon, so that the months simulated are those of the
    horizon once per option. *)
Theorem compareRefiOptions_calls (g : GrowthRate) (opts : list RefinanceOption)
    (monthlyCash : R) (horizon : Z) :
  py_max Rgtb (map payment opts) = Ok monthlyCash ->
  py_max Z.gtb (map term opts) = Ok horizon ->
  ~ ratesTooShort g horizon ->
  (forall o, In o opts -> payment o <= monthlyCash /\ (term o <= horizon)%Z)
  /\ (exists o, In o opts /\ payment o = monthlyCash)
  /\ (exists o, In o opts /\ term o = horizon)
  /\ calls (trace (compareRefiOptions g opts))
     = map (fun o => SimulateCall o monthlyCash g horizon) opts
  /\ months (trace (compareRefiOptions g opts))
     = flat_map (fun _ => range horizon) opts.
Proof.
  intros Hcash Hhor Hrates.
  assert (Hpay : forall o, In o opts -> payment o <= monthlyCash).
  { intros o Ho. apply (py_max_R_upper _ _ Hcash). now apply in_map. }
  split; [| split; [| split; [| split]]].
  - intros o Ho. split; [now apply Hpay |].
    apply (py_max_Z_upper _ _ Hhor). now apply in_map.
  - apply py_max_In in Hcash. apply in_map_iff in Hcash.
    destruct Hcash as [o [Ho Hin]]. now exists o.
  - apply py_max_In in Hhor. apply in_map_iff in Hhor.
    destruct Hhor as [o [Ho Hin]]. now exists o.
  - now apply compareRefiOptions_runs.
  - rewrite (compareRefiOptions_loop g monthlyCash horizon opts Hcash Hhor).
    rewrite compare_loop_trace;
      [| exact Hrates | intros o Ho; apply Rle_not_lt; now apply Hpay].
    clear. induction opts as [| o opts IH]; [reflexivity |].
    cbn [flat_map].
    rewrite <- app_comm_cons.
    change (months (SimulateCall o monthlyCash g horizon :: ?t)) with (months t).
    rewrite months_app, months_map_MonthStep, IH. reflexivity.
Qed.

Lemma compareRefiOptions_calls_witness :
  calls (trace (compareRefiOptions (Scalar 0)
                  [mkRefinanceOption 1 2 0; mkRefinanceOption 2 1 1]))
  = [SimulateCall (mkRefinanceOption 1 2 0) 2 (Scalar 0) 2;
     SimulateCall (mkRefinanceOption 2 1 1) 2 (Scalar 0) 2]
  /\ months (trace (compareRefiOptions (Scalar 0)
                      [mkRefinanceOption 1 2 0; mkRefinanceOption 2 1 1]))
     = [0; 1; 0; 1]%Z.
Proof.
  assert (Hcash : py_max Rgtb (map payment [mkRefinanceOption 1 2 0;
                                            mkRefinanceOption 2 1 1]) = Ok 2).
  { cbn [py_max map fold_left payment]. rewrite Rgtb_true by lra. reflexivity. }
  destruct (compareRefiOptions_calls (Scalar 0)
              [mkRefinanceOption 1 2 0; mkRefinanceOption 2 1 1] 2 2%Z
              Hcash eq_refl) as [_ [_ [_ [Hcalls Hmonths]]]]; [cbn; tauto |].
  split; [exact Hcalls | exact Hmonths].
Defined.

Lemma Rsum_app (l l' : list R) : Rsum (l ++ l') = Rsum l + Rsum l'.
Proof.
  unfold Rsum. induction l as [| x l IH]; cbn; [lra | rewrite IH; lra].
Qed.

(** The net cash of the first [n] months: the budget every month, less the
    payment for the months within the term, less the cost once. *)
Lemma netCash_sum (o : RefinanceOption) (monthlyCash : R) (n : nat) :
  Rsum (map (netCash o monthlyCash) (map Z.of_nat (seq 0 n)))
  = IZR (Z.of_nat n) * monthlyCash
    - IZR (Z.max 0 (Z.min (term o) (Z.of_nat n))) * payment o
    - (if (Z.of_nat n =? 0)%Z then 0 else cost o).
Proof.
  induction n as [| n IH].
  - replace (Z.max 0 (Z.min (term o) (Z.of_nat 0))) with 0%Z by lia.
    cbn. ring.
  - rewrite seq_S, !map_app, Rsum_app, IH. cbn [map Nat.add].
    unfold Rsum at 1. cbn [fold_right]. unfold netCash.
    rewrite Nat2Z.inj_succ, succ_IZR.
    destruct (Z.eqb_spec (Z.succ (Z.of_nat n)) 0) as [Hs | _]; [lia |].
    destruct (Z.ltb_spec (Z.of_nat n) (term o)) as [Hin | Hout].
    + replace (Z.max 0 (Z.min (term o) (Z.succ (Z.of_nat n))))
        with (Z.max 0 (Z.min (term o) (Z.of_nat n)) + 1)%Z by lia.
      rewrite plus_IZR.
      destruct (Z.eqb_spec (Z.of_nat n) 0); ring.
    + replace (Z.max 0 (Z.min (term o) (Z.succ (Z.of_nat n))))
        with (Z.max 0 (Z.min (term o) (Z.of_nat n))) by lia.
      destruct (Z.eqb_spec (Z.of_nat n) 0); ring.
Qed.

(** X18.  With a zero growth rate and a positive horizon, past the guard, the
    wealth before discounting is the cash that was not spent: the budget of
    every month, less the payment for each month of the horizon within the
    term, less the cost. *)
Theorem simulate_zero_growth (o : RefinanceOption) (monthlyCash : R)
    (horizon : Z) :
  (0 < horizon)%Z -> ~ monthlyCash < payment o ->
  outcome (simulate o monthlyCash (Scalar 0) horizon)
  = Ok (discounted
          (IZR horizon * monthlyCash
           - IZR (Z.max 0 (Z.min (term o) horizon)) * payment o
           - cost o)
          horizon).
Proof.
  intros Hpos Hcash.
  rewrite simulate_runs; [| cbn; tauto | assumption]. cbn [outcome].
  unfold presentValue. do 2 f_equal. cbn [resolvedRates].
  rewrite terminalWealth_scalar.
  assert (Hone : forall month,
             netCash o monthlyCash month * (1 + 0 / 12) ^ Z.to_nat (horizon - month)
             = netCash o monthlyCash month).
  { intros month. replace (1 + 0 / 12) with 1 by lra. rewrite pow1. ring. }
  rewrite (Rsum_ext _ (netCash o monthlyCash) _ (fun month _ => Hone month)).
  unfold range. rewrite netCash_sum, Z2Nat.id by lia.
  destruct (Z.eqb_spec horizon 0); [lia | reflexivity].
Qed.

Lemma simulate_zero_growth_witness :
  outcome (simulate (mkRefinanceOption 40 1 5) 100 (Scalar 0) 2)
  = Ok (discounted (2 * 100 - IZR (Z.max 0 (Z.min 1 2)) * 40 - 5) 2).
Proof.
  apply (simulate_zero_growth (mkRefinanceOption 40 1 5) 100 2); [lia | cbn; lra].
Defined.

(** When the budget is exactly the payment and the term covers the horizon,
    nothing is ever invested but the cost, as a debt. *)
Lemma presentValue_breakeven_nonpos (o : RefinanceOption) (monthlyCash : R)
    (g : GrowthRate) (horizon : Z) :
  monthlyCash = payment o -> (horizon <= term o)%Z -> 0 <= cost o ->
  Forall (fun r => -12 <= r) (resolvedRates g horizon) ->
  presentValue o monthlyCash g horizon <= 0.
Proof.
  intros Hcash Hterm Hcost Hfactors.
  assert (He : 0 < exp (- INFLATION * IZR horizon / 12)) by apply exp_pos.
  assert (Hw : terminalWealth o monthlyCash (resolvedRates g horizon) horizon <= 0).
  { destruct (Z_lt_le_dec 0 horizon) as [Hpos | Hneg].
    - rewrite terminalWealth_cost by assumption.
      assert (H0 : terminalWealth (mkRefinanceOption (payment o) (term o) 0)
                     monthlyCash (resolvedRates g horizon) horizon = 0).
      { rewrite terminalWealth_sum. apply Rsum_zero.
        intros month Hm. apply range_spec in Hm.
        unfold netCash. cbn [term payment cost].
        destruct (Z.ltb_spec month (term o)); [| lia].
        replace (monthlyCash
                 - (if (month =? 0)%Z then payment o + 0 else payment o))
          with 0 by (destruct (month =? 0)%Z; lra).
        apply reduce_zero. }
      rewrite H0.
      assert (0 <= growthFactor (firstn (Z.to_nat horizon) (resolvedRates g horizon))).
      { apply growthFactor_nonneg.
        apply (Forall_skipn_firstn _ _ 0 (Z.to_nat horizon)) in Hfactors.
        exact Hfactors. }
      nra.
    - unfold terminalWealth, range.
      replace (Z.to_nat horizon) with 0%nat by lia. cbn. lra. }
  unfold presentValue, discounted. nra.
Qed.

(** X19.  An option simulated with a budget equal to its payment and a
    horizon within its term never ends above zero when its cost is not
    negative and no rate is below -12: every month's cash goes to the
    mortgage, and the cost is invested as a debt. *)
Theorem simulate_breakeven_not_above_zero (o : RefinanceOption) (monthlyCash : R)
    (g : GrowthRate) (horizon : Z) :
  monthlyCash = payment o -> (horizon <= term o)%Z -> 0 <= cost o ->
  Forall (fun r => -12 <= r) (resolvedRates g horizon) ->
  ~ ratesTooShort g horizon ->
  exists v, outcome (simulate o monthlyCash g horizon) = Ok v /\ v <= 0.
Proof.
  intros Hcash Hterm Hcost Hfactors Hrates.
  eexists. split; [rewrite simulate_runs by (assumption || lra); reflexivity |].
  now apply presentValue_breakeven_nonpos.
Qed.

Lemma simulate_breakeven_not_above_zero_witness :
  exists v,
    outcome (simulate (mkRefinanceOption 40 3 5) 40 (Scalar 0.06) 2) = Ok v
    /\ v <= 0.
Proof.
  apply (simulate_breakeven_not_above_zero (mkRefinanceOption 40 3 5) 40
           (Scalar 0.06) 2).
  - reflexivity.
  - cbn. lia.
  - cbn. lra.
  - repeat constructor; lra.
  - cbn. tauto.
Defined.

(** X20.  Comparing a single option never selects it when its cost is not
    negative and no rate is below -12: the budget is its own payment and the
    horizon its own term, so its present value is not above zero and the
    result is no option. *)
Theorem compareRefiOptions_single_option_none (g : GrowthRate)
    (o : RefinanceOption) :
  0 <= cost o ->
  Forall (fun r => -12 <= r) (resolvedRates g (term o)) ->
  ~ ratesTooShort g (term o) ->
  outcome (compareRefiOptions g [o]) = Ok None.
Proof.
  intros Hcost Hfactors Hrates.
  destruct (compareRefiOptions_runs g [o] (payment o) (term o)
              eq_refl eq_refl Hrates) as [Hout _].
  rewrite Hout. f_equal. apply lastAboveZero_none.
  intros ov [<- | []]. cbn [snd].
  apply Rle_not_lt.
  apply presentValue_breakeven_nonpos; [reflexivity | lia | assumption ..].
Qed.

Lemma compareRefiOptions_single_option_none_witness :
  outcome (compareRefiOptions (Scalar 0.05) [mkRefinanceOption 1432.25 360 0])
  = Ok None.
Proof.
  apply (compareRefiOptions_single_option_none (Scalar 0.05)
           (mkRefinanceOption 1432.25 360 0)).
  - cbn. lra.
  - cbn [resolvedRates term]. unfold list_times.
    apply Forall_forall. intros r Hr. apply repeat_spec in Hr. subst r. lra.
  - cbn. tauto.
Defined.
